(** * maubot-jira: the message pipeline of [jira/__init__.py]

    A shallow embedding of the plugin: issue keys are found in a message
    with Python's [re] module, filtered against URLs, deduplicated and
    capped, checked against the project list and the cooldown ledger, then
    looked up on the tracker; the lines of the resolved issues form one
    reply.

    Text is [string]: a Python [str] whose code points are below 256, one
    [ascii] per code point, with the character classes CPython gives that
    range.  Integers ([int(time.time())], configuration numbers, HTTP
    status codes) are [Z].  The ledger [_recent_issues] is a [gmap string Z]
    and [_projects] a [list string], as in the source.  Calls of
    [self.log] are left out: they touch neither the plugin's state, nor the
    tracker, nor the conversation. *)

From Stdlib Require Import ZArith NArith Ascii String.
From stdpp Require Import base decidable option list gmap strings pretty.

Local Open Scope string_scope.
Local Open Scope list_scope.
Local Open Scope Z_scope.

(** ** Characters *)

Module Char.

Definition code (c : ascii) : N := N_of_ascii c.

Definition between (lo hi : N) (c : ascii) : bool :=
  ((lo <=? code c) && (code c <=? hi))%N.

(** [[A-Z]] *)
Definition is_upper_AZ (c : ascii) : bool := between 65 90 c.

(** [\d]: the decimal digits; below 256 these are 0-9 only. *)
Definition is_digit (c : ascii) : bool := between 48 57 c.

(** [\s], [str.isspace()] and the characters [str.strip()] removes. *)
Definition is_space (c : ascii) : bool :=
  between 9 13 c || between 28 32 c || (code c =? 133)%N || (code c =? 160)%N.

(** [\w]: alphanumeric (in the sense of [str.isalnum()]) or underscore. *)
Definition is_word (c : ascii) : bool :=
  between 48 57 c || between 65 90 c || (code c =? 95)%N || between 97 122 c
  || (code c =? 170)%N || between 178 179 c || (code c =? 181)%N
  || between 185 186 c || between 188 190 c
  || between 192 214 c || between 216 246 c || between 248 255 c.

(** One character of [str.lower()]. *)
Definition lower (c : ascii) : ascii :=
  if between 65 90 c || between 192 214 c || between 216 222 c
  then ascii_of_N (code c + 32) else c.

End Char.

(** ** Strings *)

Module Str.

Fixpoint lower (s : string) : string :=
  match s with
  | EmptyString => EmptyString
  | String c s' => String (Char.lower c) (lower s')
  end.

(** [s.startswith(p)] *)
Fixpoint startswith (p s : string) : bool :=
  match p, s with
  | EmptyString, _ => true
  | String a p', String b s' => if decide (a = b) then startswith p' s' else false
  | String _ _, EmptyString => false
  end.

(** [s.lstrip(chars)] for a class of characters. *)
Fixpoint lstrip (p : ascii -> bool) (s : string) : string :=
  match s with
  | EmptyString => EmptyString
  | String c s' => if p c then lstrip p s' else s
  end.

(** [s.rstrip(chars)] *)
Fixpoint rstrip (p : ascii -> bool) (s : string) : string :=
  match s with
  | EmptyString => EmptyString
  | String c s' =>
      match rstrip p s' with
      | EmptyString => if p c then EmptyString else String c EmptyString
      | r => String c r
      end
  end.

(** [s.strip()] *)
Definition strip (s : string) : string :=
  rstrip Char.is_space (lstrip Char.is_space s).

(** [s.split(sep)[0]] for a one-character separator: the text before the
    first [sep], the whole of [s] when there is none. *)
Fixpoint split_head (sep : ascii) (s : string) : string :=
  match s with
  | EmptyString => EmptyString
  | String c s' => if decide (c = sep) then EmptyString else String c (split_head sep s')
  end.

(** [sep.join(l)] *)
Fixpoint join (sep : string) (l : list string) : string :=
  match l with
  | [] => EmptyString
  | [x] => x
  | x :: l' => x +:+ sep +:+ join sep l'
  end.

(** The first [n] characters. *)
Fixpoint prefix (n : nat) (s : string) : string :=
  match n, s with
  | S n', String c s' => String c (prefix n' s')
  | _, _ => EmptyString
  end.

End Str.

(** ** Regular expressions

    The constructs of [re] the plugin's three patterns use, matched the way
    [re] does: leftmost, by backtracking, greedy quantifiers trying the
    longest repetition first. *)

Module Re.

Inductive regex : Type :=
  | Lit (s : string)              (* literal text, also what [re.escape] yields *)
  | Class (p : ascii -> bool)     (* one character of a class *)
  | Bound                         (* [\b] *)
  | Opt (r : regex)               (* [r?] *)
  | Star (r : regex)              (* [r*] *)
  | Plus (r : regex)              (* [r+] *)
  | Cat (r1 r2 : regex).

(** A position in the text: the character before it, if any, and the text
    from it on. *)
Definition cont : Type := option ascii -> string -> option string.

Definition word_at (o : option ascii) : bool :=
  match o with Some c => Char.is_word c | None => false end.

Definition next_char (s : string) : option ascii :=
  match s with String c _ => Some c | EmptyString => None end.

(** [\b] holds where exactly one side is a word character. *)
Definition at_boundary (prev : option ascii) (s : string) : bool :=
  xorb (word_at prev) (word_at (next_char s)).

Fixpoint lit (p : string) (prev : option ascii) (s : string) (k : cont) : option string :=
  match p with
  | EmptyString => k prev s
  | String a p' =>
      match s with
      | String b s' => if decide (a = b) then lit p' (Some b) s' k else None
      | EmptyString => None
      end
  end.

(** Greedy repetition of [step]: one more round first, the continuation
    only when that fails.  A round that consumes nothing is not repeated. *)
Fixpoint repeat (step : option ascii -> string -> cont -> option string)
    (fuel : nat) (prev : option ascii) (s : string) (k : cont) : option string :=
  match fuel with
  | O => k prev s
  | S fuel' =>
      match step prev s (fun prev' s' =>
              if (String.length s' <? String.length s)%nat
              then repeat step fuel' prev' s' k else None) with
      | Some rest => Some rest
      | None => k prev s
      end
  end.

(** [run r prev s k]: match [r] at the position [(prev, s)] and go on with
    [k] from where the match ends; the answer is the first success. *)
Fixpoint run (r : regex) (prev : option ascii) (s : string) (k : cont) : option string :=
  match r with
  | Lit p => lit p prev s k
  | Class p =>
      match s with
      | String c s' => if p c then k (Some c) s' else None
      | EmptyString => None
      end
  | Bound => if at_boundary prev s then k prev s else None
  | Opt r1 =>
      match run r1 prev s k with
      | Some rest => Some rest
      | None => k prev s
      end
  | Star r1 => repeat (run r1) (String.length s) prev s k
  | Plus r1 =>
      run r1 prev s (fun prev' s' => repeat (run r1) (String.length s') prev' s' k)
  | Cat r1 r2 => run r1 prev s (fun prev' s' => run r2 prev' s' k)
  end.

(** The match of [r] that starts at this position: what is left after it. *)
Definition match_here (r : regex) (prev : option ascii) (s : string) : option string :=
  run r prev s (fun _ rest => Some rest).

(** [re.search(r, s)] as a truth value: is there a match anywhere? *)
Fixpoint search_from (r : regex) (prev : option ascii) (s : string) : bool :=
  match match_here r prev s with
  | Some _ => true
  | None =>
      match s with
      | String c s' => search_from r (Some c) s'
      | EmptyString => false
      end
  end.

Definition search (r : regex) (s : string) : bool := search_from r None s.

(** [re.findall(r, s)]: the matches from left to right, none overlapping
    another.  [skip] counts the characters still covered by the last
    match. *)
Fixpoint findall_from (r : regex) (prev : option ascii) (s : string) (skip : nat)
    : list string :=
  match s with
  | EmptyString =>
      match skip, match_here r prev s with
      | O, Some _ => [EmptyString]
      | _, _ => []
      end
  | String c s' =>
      match skip with
      | S n => findall_from r (Some c) s' n
      | O =>
          match match_here r prev s with
          | Some rest =>
              let n := (String.length s - String.length rest)%nat in
              Str.prefix n s :: findall_from r (Some c) s' (n - 1)
          | None => findall_from r (Some c) s' 0
          end
      end
  end.

Definition findall (r : regex) (s : string) : list string := findall_from r None s 0.

End Re.

(** The three patterns of the source.  The only group of [issue_pattern]
    spans the whole match, [\b] taking no text, so [findall] returns the
    matched text. *)

(** [r"\b([A-Z]+-\d+)\b"] *)
Definition issue_pattern : Re.regex :=
  Re.Cat Re.Bound
    (Re.Cat (Re.Plus (Re.Class Char.is_upper_AZ))
       (Re.Cat (Re.Lit "-")
          (Re.Cat (Re.Plus (Re.Class Char.is_digit)) Re.Bound))).

Definition not_space (c : ascii) : bool := negb (Char.is_space c).

(** [r"https?://\S*"] *)
Definition url_pattern : Re.regex :=
  Re.Cat (Re.Lit "http")
    (Re.Cat (Re.Opt (Re.Lit "s"))
       (Re.Cat (Re.Lit "://") (Re.Star (Re.Class not_space)))).

(** [rf"https?://\S*{re.escape(issue)}\b"] *)
Definition issue_in_url_pattern (issue : string) : Re.regex :=
  Re.Cat (Re.Lit "http")
    (Re.Cat (Re.Opt (Re.Lit "s"))
       (Re.Cat (Re.Lit "://")
          (Re.Cat (Re.Star (Re.Class not_space))
             (Re.Cat (Re.Lit issue) Re.Bound)))).

(** ** Configuration, state and the outside world *)

(** The options [Config.do_update] copies.  An [ignored_users] that is
    missing reads as the empty list: both make [_is_ignored_user] answer
    [False] at once. *)
Record Config : Type := {
  jira_url : string;
  rest_api_suffix : string;
  ignored_users : list string;
  issue_cooldown : Z;
  max_issues_per_message : Z;
  include_url : bool;
  respond_to_urls : bool
}.

(** The two fields [__init__] sets on the plugin. *)
Record Plugin : Type := {
  _projects : list string;
  _recent_issues : gmap string Z
}.

Definition init : Plugin := {| _projects := []; _recent_issues := ∅ |}.

(** [mautrix.types.MessageType] *)
Inductive MessageType : Type :=
  | TEXT | EMOTE | NOTICE | IMAGE | STICKER | VIDEO | AUDIO | FILE | LOCATION.

#[global] Instance MessageType_eq_dec : EqDecision MessageType.
Proof. solve_decision. Defined.

(** What the plugin reads of a [MessageEvent]. *)
Record MessageEvent : Type := {
  msgtype : MessageType;
  sender : string;
  body : string
}.

(** The outcome of [await self.nocookie.get(url)] followed by reading the
    JSON body: the call raises, or answers with a status and a body.  The
    body is kept as what the code reads out of it ([None] when reading it
    raises: [response.json()] fails or a field is missing). *)
Inductive reply (A : Type) : Type :=
  | Raised
  | Answer (status : Z) (data : option A).
Arguments Raised {A}.
Arguments Answer {A} status data.

(** What lies outside the plugin while one event is handled.
    [urljoin] is [urllib.parse.urljoin]: [urljoin_raises base url] tells
    whether the call raises (a [ValueError] on a base that cannot be
    parsed), [urljoin base url] is its value when it does not.
    [get_issue url] is the tracker's
    answer to a GET of an issue resource, the body read as the text of
    [data["fields"]["summary"]]; [get_projects url] the answer to a GET of
    the project list, the body read as [[project["key"] for project in
    projects_data]].  [time_at key] is [int(time.time())] as read when the
    cooldown of [key] is checked: the keys of one message are distinct when
    they are checked, so each has one reading and one answer. *)
Record World : Type := {
  urljoin : string -> string -> string;
  urljoin_raises : string -> string -> bool;
  get_issue : string -> reply string;
  get_projects : string -> reply (list string);
  time_at : string -> Z;
  mxid : string
}.

(** What the plugin does to the outside: a GET sent to the tracker, a text
    sent into the conversation with [evt.respond]. *)
Inductive effect : Type :=
  | Get (url : string)
  | Respond (text : string).

(** A method of the plugin: from the state to a result, the new state and
    the effects in the order they happen. *)
Definition Act (A : Type) : Type := Plugin -> A * Plugin * list effect.

Definition ret {A : Type} (a : A) : Act A := fun p => (a, p, []).

Definition bind {A B : Type} (m : Act A) (f : A -> Act B) : Act B :=
  fun p =>
    let '(a, p1, e1) := m p in
    let '(b, p2, e2) := f a p1 in
    (b, p2, e1 ++ e2).

Notation "'let*' x := m 'in' k" := (bind m (fun x => k))
  (at level 10, x name, m at level 100, k at level 200).

Definition emit (e : effect) : Act unit := fun p => (tt, p, [e]).

Definition result {A : Type} (x : A * Plugin * list effect) : A := x.1.1.
Definition state_after {A : Type} (x : A * Plugin * list effect) : Plugin := x.1.2.
Definition effects {A : Type} (x : A * Plugin * list effect) : list effect := x.2.

(** ** Python's list and dict operations *)

(** [l.remove(x)]: the first item equal to [x] goes.  (Python raises when
    there is none; the plugin only removes an item it has just read from
    the list.) *)
Fixpoint list_remove (x : string) (l : list string) : list string :=
  match l with
  | [] => []
  | y :: l' => if decide (x = y) then l' else y :: list_remove x l'
  end.

(** [list(dict.fromkeys(l))]: keys enter the dict in the order of [l], a
    key already there stays where it is. *)
Fixpoint fromkeys_from (seen : list string) (l : list string) : list string :=
  match l with
  | [] => []
  | x :: l' =>
      if decide (x ∈ seen) then fromkeys_from seen l'
      else x :: fromkeys_from (x :: seen) l'
  end.

Definition fromkeys (l : list string) : list string := fromkeys_from [] l.

(** [l[:n]] for a Python integer [n]: a negative [n] counts from the end. *)
Definition slice_to {A : Type} (n : Z) (l : list A) : list A :=
  if decide (n < 0) then take (Z.to_nat (Z.of_nat (length l) + n)) l
  else take (Z.to_nat n) l.

(** ** The plugin's methods *)

Section Methods.

Context (w : World) (cfg : Config).

(** [user_id.split(":")[0].lstrip("@")] *)
Definition username (user_id : string) : string :=
  Str.lstrip (fun c => bool_decide (c = "@"%char)) (Str.split_head ":" user_id).

(** [_is_ignored_user] *)
Definition _is_ignored_user (user_id : string) : bool :=
  match ignored_users cfg with
  | [] => false
  | _ =>
      let ignored_list := map Str.strip (ignored_users cfg) in
      bool_decide (username user_id ∈ ignored_list)
  end.

(** The keys [_is_issue_on_cooldown] collects for deletion. *)
Definition expired_issues (now : Z) (recent : gmap string Z) : list string :=
  (filter (fun kt : string * Z => now - kt.2 > issue_cooldown cfg) (map_to_list recent)).*1.

(** [_is_issue_on_cooldown], the clock reading [now] made explicit: the
    answer and the ledger it leaves. *)
Definition _is_issue_on_cooldown (now : Z) (issue_key : string)
    (recent : gmap string Z) : bool * gmap string Z :=
  let recent := foldl (fun m key => delete key m) recent (expired_issues now recent) in
  if decide (is_Some (recent !! issue_key)) then (true, recent)
  else (false, <[issue_key := now]> recent).

(** The method on the plugin's state. *)
Definition is_issue_on_cooldown (issue_key : string) : Act bool :=
  fun p =>
    let '(b, recent) :=
      _is_issue_on_cooldown (time_at w issue_key) issue_key (_recent_issues p) in
    (b, {| _projects := _projects p; _recent_issues := recent |}, []).

(** A call of [urljoin] inside a [try]: [None] when it raises. *)
Definition joined (base url : string) : option string :=
  if urljoin_raises w base url then None else Some (urljoin w base url).

(** The URL of the issue resource, when the calls that build it return. *)
Definition issue_url (issue_key : string) : string :=
  let api_base := urljoin w (jira_url cfg) (rest_api_suffix cfg) in
  urljoin w (api_base +:+ "/") ("issue/" +:+ issue_key).

(** The line [_fetch_issue_info] returns for a title, when the call that
    builds the browse URL returns. *)
Definition issue_line (issue_key title : string) : string :=
  if include_url cfg then
    let browse_url := urljoin w (jira_url cfg) ("browse/" +:+ issue_key) in
    "[" +:+ issue_key +:+ "](" +:+ browse_url +:+ "): " +:+ title
  else issue_key +:+ ": " +:+ title.

(** [_fetch_issue_info]: every exception ends in [None], those of the
    calls of [urljoin] before the request as well as those of the request
    and of what follows it. *)
Definition _fetch_issue_info (issue_key : string) : Act (option string) :=
  match joined (jira_url cfg) (rest_api_suffix cfg) with
  | None => ret None
  | Some api_base =>
      match joined (api_base +:+ "/") ("issue/" +:+ issue_key) with
      | None => ret None
      | Some issue_url =>
          let* _ := emit (Get issue_url) in
          match get_issue w issue_url with
          | Raised => ret None
          | Answer status data =>
              if decide (status = 200) then
                match data with
                | Some title =>
                    if include_url cfg then
                      match joined (jira_url cfg) ("browse/" +:+ issue_key) with
                      | None => ret None
                      | Some browse_url =>
                          ret (Some ("[" +:+ issue_key +:+ "](" +:+ browse_url
                                     +:+ "): " +:+ title))
                      end
                    else ret (Some (issue_key +:+ ": " +:+ title))
                | None => ret None
                end
              else ret None
          end
      end
  end.

(** The loop of [_process_message_for_issues] that removes the issues
    found in a URL.  Python's list iterator keeps an index [i] into the
    list the body is removing from; it stops when [i] is past the end.
    [fuel] bounds the rounds; the length of the list is enough. *)
Fixpoint remove_url_issues (message_body : string) (fuel i : nat)
    (issue_matches : list string) : list string :=
  match fuel with
  | O => issue_matches
  | S fuel' =>
      match issue_matches !! i with
      | None => issue_matches
      | Some issue =>
          remove_url_issues message_body fuel' (S i)
            (if Re.search (issue_in_url_pattern issue) message_body
             then list_remove issue issue_matches
             else issue_matches)
      end
  end.

(** The candidates left after the URL check (lines 82 to 93). *)
Definition issue_matches (message_body : string) : list string :=
  let found := Re.findall issue_pattern message_body in
  if negb (respond_to_urls cfg) && Re.search url_pattern message_body
  then remove_url_issues message_body (length found) 0 found
  else found.

(** Deduplicated and capped (lines 98 to 104): the keys the loop visits. *)
Definition unique_issues (message_body : string) : list string :=
  let unique := fromkeys (issue_matches message_body) in
  let max_issues := max_issues_per_message cfg in
  if decide (Z.of_nat (length unique) > max_issues)
  then slice_to max_issues unique else unique.

(** One round of the loop over [unique_issues]: the line to append, if
    any. *)
Definition lookup_issue (issue_key : string) : Act (option string) :=
  fun p =>
    let project_key := Str.split_head "-" issue_key in
    if decide (project_key ∈ _projects p) then
      (let* on_cooldown := is_issue_on_cooldown issue_key in
       if on_cooldown then ret None else _fetch_issue_info issue_key) p
    else ret None p.

Fixpoint lookup_issues (keys : list string) : Act (list string) :=
  match keys with
  | [] => ret []
  | issue_key :: keys' =>
      let* issue_info := lookup_issue issue_key in
      let* responses := lookup_issues keys' in
      ret (match issue_info with
           | Some line => line :: responses
           | None => responses
           end)
  end.

Definition newline : string := String (ascii_of_nat 10) "".

(** The text sent for a non-empty [responses]. *)
Definition response_text (message_body : string) (responses : list string) : string :=
  let formatted_responses :=
    if Str.startswith "[off]" (Str.lower message_body)
    then map (fun response => "[off] " +:+ response) responses
    else responses in
  Str.join newline formatted_responses.

(** [_process_message_for_issues] *)
Definition _process_message_for_issues (evt : MessageEvent) : Act unit :=
  let message_body := body evt in
  match Re.findall issue_pattern message_body with
  | [] => ret tt
  | _ =>
      match issue_matches message_body with
      | [] => ret tt
      | _ =>
          let* responses := lookup_issues (unique_issues message_body) in
          match responses with
          | [] => ret tt
          | _ => emit (Respond (response_text message_body responses))
          end
      end
  end.

(** [on_message] *)
Definition on_message (evt : MessageEvent) : Act unit :=
  if decide (msgtype evt ≠ TEXT) then ret tt
  else if _is_ignored_user (sender evt) then ret tt
  else if decide (sender evt = mxid w) then ret tt
  else _process_message_for_issues evt.

(** The URL of the project list, when the calls that build it return. *)
Definition projects_url : string :=
  let api_base := urljoin w (jira_url cfg) (rest_api_suffix cfg) in
  urljoin w (api_base +:+ "/") "project".

(** [_update_projects]: every exception ends in [False], those of the calls
    of [urljoin] before the request included. *)
Definition _update_projects : Act bool :=
  match joined (jira_url cfg) (rest_api_suffix cfg) with
  | None => ret false
  | Some api_base =>
      match joined (api_base +:+ "/") "project" with
      | None => ret false
      | Some projects_url =>
          let* _ := emit (Get projects_url) in
          match get_projects w projects_url with
          | Raised => ret false
          | Answer status data =>
              if decide (status = 200) then
                match data with
                | Some keys =>
                    fun p =>
                      (true,
                       {| _projects := keys; _recent_issues := _recent_issues p |},
                       [])
                | None => ret false
                end
              else ret false
          end
      end
  end.

(** The [!jira update] command. *)
Definition update_projects : Act unit :=
  let* success := _update_projects in
  if success then
    fun p =>
      emit (Respond ("Successfully updated projects list. Found "
                     +:+ pretty (length (_projects p)) +:+ " projects.")) p
  else emit (Respond "Failed to update projects list. Check logs for details.").

(** [_load_projects], the plugin's part of [start]. *)
Definition _load_projects : Act unit :=
  fun p =>
    match _projects p with
    | [] => (let* _ := _update_projects in ret tt) p
    | _ => ret tt p
    end.

End Methods.

(** ** Notions the statements use *)

(** The texts sent with [evt.respond], in order. *)
Fixpoint sent (es : list effect) : list string :=
  match es with
  | [] => []
  | Respond text :: es' => text :: sent es'
  | Get _ :: es' => sent es'
  end.

(** A request that fails: the GET raises, the status is not 200, or
    reading the body raises. *)
Definition failed {A : Type} (r : reply A) : Prop :=
  match r with
  | Raised => True
  | Answer status data => status ≠ 200 ∨ data = None
  end.

(** The entries a check at [now] keeps: those whose age does not exceed the
    window. *)
Definition live (cfg : Config) (now : Z) (recent : gmap string Z) : gmap string Z :=
  filter (fun kt : string * Z => ¬ now - kt.2 > issue_cooldown cfg) recent.

Section Notions.

Context (w : World) (cfg : Config).

(** One of the two calls of [urljoin] that build the URL of the issue
    resource raises. *)
Definition issue_url_raises (issue_key : string) : bool :=
  urljoin_raises w (jira_url cfg) (rest_api_suffix cfg)
  || urljoin_raises w (urljoin w (jira_url cfg) (rest_api_suffix cfg) +:+ "/")
       ("issue/" +:+ issue_key).

(** One of the two calls of [urljoin] that build the URL of the project
    list raises. *)
Definition projects_url_raises : bool :=
  urljoin_raises w (jira_url cfg) (rest_api_suffix cfg)
  || urljoin_raises w (urljoin w (jira_url cfg) (rest_api_suffix cfg) +:+ "/") "project".

(** The browse URL is asked for and the call of [urljoin] for it raises. *)
Definition browse_url_raises (issue_key : string) : bool :=
  include_url cfg && urljoin_raises w (jira_url cfg) ("browse/" +:+ issue_key).

(** The requests a fetch of the issue makes. *)
Definition fetch_requests (issue_key : string) : list effect :=
  if issue_url_raises issue_key then [] else [Get (issue_url w cfg issue_key)].

(** The title a fetch of the issue ends with. *)
Definition fetched_title (issue_key : string) : option string :=
  if issue_url_raises issue_key then None
  else
    match get_issue w (issue_url w cfg issue_key) with
    | Answer status (Some title) =>
        if decide (status = 200) then
          if browse_url_raises issue_key then None else Some title
        else None
    | _ => None
    end.

(** The line a fetch of the issue yields. *)
Definition fetched_line (issue_key : string) : option string :=
  issue_line w cfg issue_key <$> fetched_title issue_key.

(** The ledger a cooldown check of [issue_key] at its clock reading works
    on, once the expired entries are gone. *)
Definition checked (issue_key : string) (p : Plugin) : gmap string Z :=
  live cfg (time_at w issue_key) (_recent_issues p).

(** The title [issue_key] resolves to from the state [p]: its project is
    known, it is not on cooldown, the URLs can be built, and the tracker
    answers 200 with a title. *)
Definition resolves (issue_key : string) (p : Plugin) : option string :=
  if decide (Str.split_head "-" issue_key ∈ _projects p) then
    if (_is_issue_on_cooldown cfg (time_at w issue_key) issue_key (_recent_issues p)).1
    then None
    else fetched_title issue_key
  else None.

(** The resolved issues of a message, key and title, in the order of the
    keys. *)
Fixpoint resolved_issues (keys : list string) (p : Plugin) : list (string * string) :=
  match keys with
  | [] => []
  | issue_key :: keys' =>
      let rest := resolved_issues keys' (state_after (lookup_issue w cfg issue_key p)) in
      match resolves issue_key p with
      | Some title => (issue_key, title) :: rest
      | None => rest
      end
  end.

End Notions.

(** ** What a regular expression matches *)

(** The character before the position reached by reading [m]. *)
Fixpoint prev_after (prev : option ascii) (m : string) : option ascii :=
  match m with
  | EmptyString => prev
  | String c m' => prev_after (Some c) m'
  end.

(** Every character of [s] is of the class [p]. *)
Fixpoint all_chars (p : ascii -> bool) (s : string) : bool :=
  match s with
  | EmptyString => true
  | String c s' => p c && all_chars p s'
  end.

(** [matches r prev m rest]: the text [m] is a match of [r] where the
    character before it is [prev] and the text after it is [rest]. *)
Inductive matches : Re.regex -> option ascii -> string -> string -> Prop :=
  | matches_lit p prev rest :
      matches (Re.Lit p) prev p rest
  | matches_class (p : ascii -> bool) c prev rest :
      p c = true -> matches (Re.Class p) prev (String c "") rest
  | matches_bound prev rest :
      Re.at_boundary prev rest = true -> matches Re.Bound prev "" rest
  | matches_opt_none r prev rest :
      matches (Re.Opt r) prev "" rest
  | matches_opt_some r prev m rest :
      matches r prev m rest -> matches (Re.Opt r) prev m rest
  | matches_star_none r prev rest :
      matches (Re.Star r) prev "" rest
  | matches_star_more r prev m1 m2 rest :
      matches r prev m1 (m2 +:+ rest) ->
      matches (Re.Star r) (prev_after prev m1) m2 rest ->
      matches (Re.Star r) prev (m1 +:+ m2) rest
  | matches_plus r prev m1 m2 rest :
      matches r prev m1 (m2 +:+ rest) ->
      matches (Re.Star r) (prev_after prev m1) m2 rest ->
      matches (Re.Plus r) prev (m1 +:+ m2) rest
  | matches_cat r1 r2 prev m1 m2 rest :
      matches r1 prev m1 (m2 +:+ rest) ->
      matches r2 (prev_after prev m1) m2 rest ->
      matches (Re.Cat r1 r2) prev (m1 +:+ m2) rest.

(** What the removal loop of lines 91 to 93 leaves of a list of distinct
    candidates, [hit] telling which ones end a URL: a candidate that is hit
    goes, and the one after it is passed over unexamined. *)
Fixpoint passed_over (hit : string -> bool) (l : list string) : list string :=
  match l with
  | [] => []
  | x :: l' =>
      if hit x then
        match l' with
        | [] => []
        | y :: l'' => y :: passed_over hit l''
        end
      else x :: passed_over hit l'
  end.

(** ** The body of the project list

    The JSON value [response.json()] returns and the reading
    [[project["key"] for project in projects_data]] of line 189.  The
    reading tells numbers from other values only, so [JNumber] stands for
    every JSON number. *)

#[warnings="-register-all"] Inductive json : Type :=
  | JNull
  | JBool (b : bool)
  | JNumber (n : Z)
  | JString (s : string)
  | JArray (items : list json)
  | JObject (fields : list (string * json)).

(** [for x in v]: a list gives its items, a dict its keys in the order they
    came in, a string its characters; nothing else can be iterated
    ([None]: a [TypeError]). *)
Definition iterate (v : json) : option (list json) :=
  match v with
  | JArray items => Some items
  | JObject fields => Some (JString <$> fromkeys fields.*1)
  | JString s => Some ((fun c => JString (String c "")) <$> list_ascii_of_string s)
  | _ => None
  end.

(** [v[name]]: the value of a dict under [name], the last one given for
    it; a [KeyError] when there is none and a [TypeError] on anything that
    is not a dict ([None]). *)
Definition subscript (name : string) (v : json) : option json :=
  match v with
  | JObject fields =>
      last (omap (fun kv : string * json =>
                    if decide (kv.1 = name) then Some kv.2 else None) fields)
  | _ => None
  end.

(** [[project["key"] for project in projects_data]] *)
Definition project_keys (projects_data : json) : option (list json) :=
  match iterate projects_data with
  | Some items => mapM (subscript "key") items
  | None => None
  end.

(** The body [projects_data] is read as [data] by the answer of
    [get_projects]: the reading raises, or it yields these keys, all of
    them strings. *)
Definition reads_as (projects_data : json) (data : option (list string)) : Prop :=
  project_keys projects_data = option_map (map JString) data.

(** ** Concrete inputs *)

Module Sample.

(** A tracker at [https://tracker/] whose API lives under [rest/api/2]. *)
Definition config (cooldown max_issues : Z) (with_url urls : bool) : Config :=
  {| jira_url := "https://tracker/";
     rest_api_suffix := "rest/api/2";
     ignored_users := [" bob "; "carol"];
     issue_cooldown := cooldown;
     max_issues_per_message := max_issues;
     include_url := with_url;
     respond_to_urls := urls |}.

(** For a base that ends in a slash and a relative path without dots,
    [urljoin] appends the path. *)
Definition join_url (base rel : string) : string := base +:+ rel.

Definition world (issues : string -> reply string)
    (projects : reply (list string)) (now : Z) : World :=
  {| urljoin := join_url;
     urljoin_raises := fun _ _ => false;
     get_issue := issues;
     get_projects := fun _ => projects;
     time_at := fun _ => now;
     mxid := "@jirabot:example.org" |}.

(** The same with a base URL that [urljoin] cannot parse: every call
    raises. *)
Definition broken_world (issues : string -> reply string)
    (projects : reply (list string)) (now : Z) : World :=
  {| urljoin := join_url;
     urljoin_raises := fun _ _ => true;
     get_issue := issues;
     get_projects := fun _ => projects;
     time_at := fun _ => now;
     mxid := "@jirabot:example.org" |}.

Definition message (from text : string) : MessageEvent :=
  {| msgtype := TEXT; sender := from; body := text |}.

Definition plugin (known : list string) (recent : gmap string Z) : Plugin :=
  {| _projects := known; _recent_issues := recent |}.

End Sample.

(** ** The repetitions of the regular expressions end

    A round of a repetition is only repeated when it has consumed text, so
    the length of the text bounds the number of rounds: more fuel than that
    changes nothing. *)

Section Repeat.

Context (step : option ascii → string → Re.cont → option string).

Hypothesis step_ext : ∀ prev s (k1 k2 : Re.cont),
  (∀ prev' s', k1 prev' s' = k2 prev' s') → step prev s k1 = step prev s k2.

Hypothesis step_fails : ∀ prev s, step prev s (fun _ _ => None) = None.

Lemma repeat_ext (fuel : nat) (prev : option ascii) (s : string) (k1 k2 : Re.cont) :
  (∀ prev' s', k1 prev' s' = k2 prev' s') →
  Re.repeat step fuel prev s k1 = Re.repeat step fuel prev s k2.
Proof.
  intros Hk. revert prev s. induction fuel as [|fuel IH]; intros prev s; cbn [Re.repeat]; [apply Hk|].
  rewrite (step_ext prev s _
             (fun prev' s' =>
                if (String.length s' <? String.length s)%nat
                then Re.repeat step fuel prev' s' k2 else None)).
  - by rewrite Hk.
  - intros prev' s'. cbn beta. destruct (_ <? _)%nat; [apply IH|done].
Qed.

Lemma repeat_fails (fuel : nat) (prev : option ascii) (s : string) :
  Re.repeat step fuel prev s (fun _ _ => None) = None.
Proof.
  revert prev s. induction fuel as [|fuel IH]; intros prev s; cbn [Re.repeat]; [done|].
  rewrite (step_ext prev s _ (fun _ _ => None)).
  - by rewrite step_fails.
  - intros prev' s'. cbn beta. destruct (_ <? _)%nat; [apply IH|done].
Qed.

Lemma repeat_at_end (fuel : nat) (prev : option ascii) (k : Re.cont) :
  Re.repeat step fuel prev "" k = k prev "".
Proof.
  destruct fuel as [|fuel]; cbn [Re.repeat]; [done|].
  rewrite (step_ext prev "" _ (fun _ _ => None)); [by rewrite step_fails|].
  intros prev' s'. cbn beta. destruct (_ <? _)%nat eqn:Hlt; [|done].
  apply Nat.ltb_lt in Hlt. cbn in Hlt. lia.
Qed.

Lemma repeat_fuel (fuel1 fuel2 : nat) (prev : option ascii) (s : string) (k : Re.cont) :
  (String.length s ≤ fuel1)%nat → (String.length s ≤ fuel2)%nat →
  Re.repeat step fuel1 prev s k = Re.repeat step fuel2 prev s k.
Proof.
  revert fuel2 prev s. induction fuel1 as [|fuel1 IH]; intros fuel2 prev s H1 H2.
  - destruct s; [|cbn in H1; lia]. by rewrite !repeat_at_end.
  - destruct fuel2 as [|fuel2].
    + destruct s; [|cbn in H2; lia]. by rewrite !repeat_at_end.
    + cbn [Re.repeat].
      rewrite (step_ext prev s _
                 (fun prev' s' =>
                    if (String.length s' <? String.length s)%nat
                    then Re.repeat step fuel2 prev' s' k else None)); [done|].
      intros prev' s'. cbn beta. destruct (_ <? _)%nat eqn:Hlt; [|done].
      apply Nat.ltb_lt in Hlt. apply IH; lia.
Qed.

End Repeat.

Lemma lit_ext (p : string) (prev : option ascii) (s : string) (k1 k2 : Re.cont) :
  (∀ prev' s', k1 prev' s' = k2 prev' s') → Re.lit p prev s k1 = Re.lit p prev s k2.
Proof.
  intros Hk. revert prev s. induction p as [|a p IH]; intros prev s; cbn; [apply Hk|].
  destruct s as [|b s]; [done|]. destruct (decide (a = b)); [apply IH|done].
Qed.

Lemma lit_fails (p : string) (prev : option ascii) (s : string) :
  Re.lit p prev s (fun _ _ => None) = None.
Proof.
  revert prev s. induction p as [|a p IH]; intros prev s; cbn; [done|].
  destruct s as [|b s]; [done|]. destruct (decide (a = b)); [apply IH|done].
Qed.

Lemma run_ext (r : Re.regex) (prev : option ascii) (s : string) (k1 k2 : Re.cont) :
  (∀ prev' s', k1 prev' s' = k2 prev' s') → Re.run r prev s k1 = Re.run r prev s k2.
Proof.
  revert prev s k1 k2.
  induction r as [p|p| |r IH|r IH|r IH|r1 IH1 r2 IH2]; intros prev s k1 k2 Hk; cbn.
  - by apply lit_ext.
  - destruct s as [|c s]; [done|]. destruct (p c); [apply Hk|done].
  - destruct (Re.at_boundary prev s); [apply Hk|done].
  - by rewrite (IH prev s k1 k2), Hk.
  - apply repeat_ext; [|done]. intros prev' s' k k' H. by apply IH.
  - apply IH. intros prev' s'. apply repeat_ext; [|done].
    intros prev'' s'' k k' H. by apply IH.
  - apply IH1. intros prev' s'. by apply IH2.
Qed.

(** Every match ends in the continuation. *)
Lemma run_fails (r : Re.regex) (prev : option ascii) (s : string) :
  Re.run r prev s (fun _ _ => None) = None.
Proof.
  revert prev s.
  induction r as [p|p| |r IH|r IH|r IH|r1 IH1 r2 IH2]; intros prev s; cbn.
  - apply lit_fails.
  - destruct s as [|c s]; [done|]. by destruct (p c).
  - by destruct (Re.at_boundary prev s).
  - by rewrite IH.
  - apply repeat_fails; [|done]. intros prev' s' k k' H. by apply run_ext.
  - rewrite (run_ext r prev s _ (fun _ _ => None)); [done|].
    intros prev' s'. apply repeat_fails; [|done].
    intros prev'' s'' k k' H. by apply run_ext.
  - rewrite (run_ext r1 prev s _ (fun _ _ => None)); [done|].
    intros prev' s'. apply IH2.
Qed.

(** [r*] with any fuel from the length of the text on. *)
Lemma star_enough_fuel (r : Re.regex) (fuel : nat) (prev : option ascii)
    (s : string) (k : Re.cont) :
  (String.length s ≤ fuel)%nat →
  Re.repeat (Re.run r) fuel prev s k = Re.run (Re.Star r) prev s k.
Proof.
  intros Hfuel. cbn. apply repeat_fuel; [|apply run_fails|done|done].
  intros prev' s' k1 k2 H. by apply run_ext.
Qed.

(** ** The state monad *)

Lemma bind_run {A B : Type} (m : Act A) (f : A -> Act B) (p : Plugin) :
  bind m f p =
    (result (f (result (m p)) (state_after (m p))),
     state_after (f (result (m p)) (state_after (m p))),
     effects (m p) ++ effects (f (result (m p)) (state_after (m p)))).
Proof.
  unfold bind, result, state_after, effects.
  destruct (m p) as [[a p1] e1]; simpl.
  destruct (f a p1) as [[b p2] e2]; reflexivity.
Qed.

Lemma triple_eta {A : Type} (x : A * Plugin * list effect) :
  x = (result x, state_after x, effects x).
Proof. destruct x as [[a p] e]; reflexivity. Qed.

(** ** The cooldown ledger *)

Section Cooldown.

Context (cfg : Config).

Lemma lookup_delete_all (l : list string) (m : gmap string Z) (k : string) :
  foldl (fun m key => delete key m) m l !! k =
    if decide (k ∈ l) then None else m !! k.
Proof.
  revert m; induction l as [|x l IH]; intros m.
  - destruct (decide (k ∈ [])) as [H|H]; [by apply elem_of_nil in H | done].
  - cbn [foldl]. rewrite IH. destruct (decide (k = x)) as [->|Hne].
    + rewrite lookup_delete_eq.
      rewrite (decide_True (P := x ∈ x :: l)) by apply list_elem_of_here.
      by destruct (decide (x ∈ l)).
    + rewrite lookup_delete_ne by done.
      destruct (decide (k ∈ l)) as [Hin|Hnin].
      * by rewrite (decide_True (P := k ∈ x :: l)) by (by apply list_elem_of_further).
      * rewrite (decide_False (P := k ∈ x :: l)); [done|].
        intros [?|?]%elem_of_cons; done.
Qed.

Lemma elem_of_expired_issues (now : Z) (recent : gmap string Z) (k : string) :
  k ∈ expired_issues cfg now recent ↔
  ∃ ts, recent !! k = Some ts ∧ now - ts > issue_cooldown cfg.
Proof.
  unfold expired_issues. rewrite list_elem_of_fmap. split.
  - intros [[k' ts] [Heq Hin]]. simpl in Heq. subst k'.
    apply list_elem_of_filter in Hin as [Hage Hin].
    apply elem_of_map_to_list in Hin. by exists ts.
  - intros [ts [Hk Hage]]. exists (k, ts). split; [done|].
    apply list_elem_of_filter. split; [done|]. by apply elem_of_map_to_list.
Qed.

(** Collecting the expired keys and deleting them one by one leaves the
    live entries. *)
Lemma purge_live (now : Z) (recent : gmap string Z) :
  foldl (fun m key => delete key m) recent (expired_issues cfg now recent)
  = live cfg now recent.
Proof.
  apply map_eq; intros k. rewrite lookup_delete_all. unfold live.
  destruct (recent !! k) as [ts|] eqn:Hk.
  - case_decide as Hin.
    + apply elem_of_expired_issues in Hin as [ts' [Hk' Hage]].
      symmetry. apply map_lookup_filter_None. right. intros x Hx. simpl.
      intros Hn. apply Hn. congruence.
    + symmetry. apply map_lookup_filter_Some. split; [done|]. simpl.
      intros Hage. apply Hin. apply elem_of_expired_issues. by exists ts.
  - case_decide; symmetry; apply map_lookup_filter_None; by left.
Qed.

Lemma lookup_live_Some (now : Z) (recent : gmap string Z) (k : string) (ts : Z) :
  live cfg now recent !! k = Some ts ↔ recent !! k = Some ts ∧ now - ts <= issue_cooldown cfg.
Proof.
  unfold live. rewrite map_lookup_filter_Some. simpl. split.
  - intros [? ?]; split; [done|lia].
  - intros [? ?]; split; [done|lia].
Qed.

Lemma lookup_live_None (now : Z) (recent : gmap string Z) (k : string) :
  live cfg now recent !! k = None ↔
  ∀ ts, recent !! k = Some ts → now - ts > issue_cooldown cfg.
Proof.
  unfold live. rewrite map_lookup_filter_None. simpl. split.
  - intros [Hk|Hk] ts Hts; [congruence|].
    specialize (Hk ts Hts). lia.
  - intros H. destruct (recent !! k) as [ts|] eqn:Hk; [right|by left].
    intros x [= <-]. specialize (H ts eq_refl). lia.
Qed.

(** [_is_issue_on_cooldown] in terms of the live entries. *)
Lemma cooldown_unfold (now : Z) (issue_key : string) (recent : gmap string Z) :
  _is_issue_on_cooldown cfg now issue_key recent =
    match live cfg now recent !! issue_key with
    | Some _ => (true, live cfg now recent)
    | None => (false, <[issue_key := now]> (live cfg now recent))
    end.
Proof.
  unfold _is_issue_on_cooldown. rewrite purge_live.
  destruct (live cfg now recent !! issue_key) as [ts|] eqn:Hk.
  - rewrite decide_True; [done|by eexists].
  - rewrite decide_False; [done|]. by intros [? ?].
Qed.

End Cooldown.

(** ** What reaches the conversation and the tracker *)

Lemma sent_app (es1 es2 : list effect) : sent (es1 ++ es2) = sent es1 ++ sent es2.
Proof.
  induction es1 as [|[url|text] es1 IH]; simpl; [done|done|by rewrite IH].
Qed.

(** ** The lookup loop *)

Section Loop.

Context (w : World) (cfg : Config).

Lemma fetch_issue_info_run (issue_key : string) (p : Plugin) :
  _fetch_issue_info w cfg issue_key p =
    (fetched_line w cfg issue_key, p, fetch_requests w cfg issue_key).
Proof.
  unfold _fetch_issue_info, fetched_line, fetched_title, fetch_requests,
    issue_url_raises, browse_url_raises, joined.
  destruct (urljoin_raises w (jira_url cfg) (rest_api_suffix cfg)); [done|].
  cbn [orb]. fold (issue_url w cfg issue_key).
  destruct (urljoin_raises w _ ("issue/" +:+ issue_key)); [done|].
  rewrite bind_run. unfold emit, result, state_after, effects; cbn [fst snd].
  destruct (get_issue w (issue_url w cfg issue_key)) as [|status [title|]];
    [done| |]; destruct (decide (status = 200)); try done.
  unfold issue_line. destruct (include_url cfg); [|done]. cbn [andb].
  by destruct (urljoin_raises w (jira_url cfg) ("browse/" +:+ issue_key)).
Qed.

Lemma fetch_requests_sent (issue_key : string) :
  sent (fetch_requests w cfg issue_key) = [].
Proof. unfold fetch_requests. by destruct (issue_url_raises w cfg issue_key). Qed.

Lemma fetched_line_failed (issue_key : string) :
  failed (get_issue w (issue_url w cfg issue_key)) →
  fetched_line w cfg issue_key = None.
Proof.
  unfold failed, fetched_line, fetched_title.
  destruct (issue_url_raises w cfg issue_key); [done|].
  destruct (get_issue w (issue_url w cfg issue_key)) as [|status [title|]];
    [done| |done].
  intros [Hs|Hd]; [by rewrite decide_False|done].
Qed.

(** One round of the loop, case by case. *)
Lemma lookup_issue_run (issue_key : string) (p : Plugin) :
  lookup_issue w cfg issue_key p =
    if decide (Str.split_head "-" issue_key ∈ _projects p) then
      match checked w cfg issue_key p !! issue_key with
      | Some _ =>
          (None,
           {| _projects := _projects p; _recent_issues := checked w cfg issue_key p |},
           [])
      | None =>
          (fetched_line w cfg issue_key,
           {| _projects := _projects p;
              _recent_issues := <[issue_key := time_at w issue_key]> (checked w cfg issue_key p) |},
           fetch_requests w cfg issue_key)
      end
    else (None, p, []).
Proof.
  unfold lookup_issue, checked.
  destruct (decide (Str.split_head "-" issue_key ∈ _projects p)); [|done].
  rewrite bind_run. unfold is_issue_on_cooldown. rewrite cooldown_unfold.
  destruct (live cfg (time_at w issue_key) (_recent_issues p) !! issue_key);
    unfold result, state_after, effects; cbn [fst snd]; [done|].
  by rewrite fetch_issue_info_run.
Qed.

Lemma lookup_issue_projects (issue_key : string) (p : Plugin) :
  _projects (state_after (lookup_issue w cfg issue_key p)) = _projects p.
Proof.
  rewrite lookup_issue_run.
  destruct (decide _); [|done]. by destruct (checked w cfg issue_key p !! issue_key).
Qed.

Lemma lookup_issue_sent (issue_key : string) (p : Plugin) :
  sent (effects (lookup_issue w cfg issue_key p)) = [].
Proof.
  rewrite lookup_issue_run.
  destruct (decide _); [|done].
  destruct (checked w cfg issue_key p !! issue_key); [done|].
  apply fetch_requests_sent.
Qed.

Lemma lookup_issues_cons (issue_key : string) (keys : list string) (p : Plugin) :
  let x := lookup_issue w cfg issue_key p in
  let xs := lookup_issues w cfg keys (state_after x) in
  lookup_issues w cfg (issue_key :: keys) p =
    (match result x with
     | Some line => line :: result xs
     | None => result xs
     end,
     state_after xs, effects x ++ effects xs).
Proof.
  intros x xs. cbn [lookup_issues]. rewrite bind_run, bind_run.
  fold x. fold xs. unfold ret, result, state_after, effects; cbn [fst snd].
  by rewrite app_nil_r.
Qed.

(** The loop over a list in two parts is the loop over the first part and
    then, from the state it leaves, over the second. *)
Lemma lookup_issues_app (keys1 keys2 : list string) (p : Plugin) :
  let x1 := lookup_issues w cfg keys1 p in
  let x2 := lookup_issues w cfg keys2 (state_after x1) in
  lookup_issues w cfg (keys1 ++ keys2) p =
    (result x1 ++ result x2, state_after x2, effects x1 ++ effects x2).
Proof.
  revert p; induction keys1 as [|k keys1 IH]; intros p x1 x2.
  - subst x1 x2. cbn. apply triple_eta.
  - subst x1 x2. rewrite <- app_comm_cons.
    rewrite !lookup_issues_cons. cbn zeta.
    rewrite IH. unfold result, state_after, effects; cbn [fst snd].
    rewrite app_assoc.
    by destruct (lookup_issue w cfg k p).1.1.
Qed.

Lemma lookup_issues_sent (keys : list string) (p : Plugin) :
  sent (effects (lookup_issues w cfg keys p)) = [].
Proof.
  revert p; induction keys as [|k keys IH]; intros p; [done|].
  rewrite lookup_issues_cons. unfold effects at 1; cbn [snd].
  by rewrite sent_app, lookup_issue_sent, IH.
Qed.

Lemma lookup_issues_projects (keys : list string) (p : Plugin) :
  _projects (state_after (lookup_issues w cfg keys p)) = _projects p.
Proof.
  revert p; induction keys as [|k keys IH]; intros p; [done|].
  rewrite lookup_issues_cons. unfold state_after at 1; cbn [fst snd].
  by rewrite IH, lookup_issue_projects.
Qed.

(** Keys of unknown projects leave no trace. *)
Lemma lookup_issues_unknown (keys : list string) (p : Plugin) :
  Forall (fun k => Str.split_head "-" k ∉ _projects p) keys →
  lookup_issues w cfg keys p = ([], p, []).
Proof.
  induction 1 as [|k keys Hk _ IH]; [done|].
  rewrite lookup_issues_cons, lookup_issue_run.
  rewrite decide_False by done.
  unfold result, state_after, effects; cbn [fst snd].
  by rewrite IH.
Qed.

(** [_update_projects], case by case. *)
Lemma update_projects_run (p : Plugin) :
  _update_projects w cfg p =
    if projects_url_raises w cfg then (false, p, [])
    else
      match get_projects w (projects_url w cfg) with
      | Answer status (Some keys) =>
          if decide (status = 200)
          then (true, {| _projects := keys; _recent_issues := _recent_issues p |},
                [Get (projects_url w cfg)])
          else (false, p, [Get (projects_url w cfg)])
      | _ => (false, p, [Get (projects_url w cfg)])
      end.
Proof.
  unfold _update_projects, projects_url_raises, joined.
  destruct (urljoin_raises w (jira_url cfg) (rest_api_suffix cfg)); [done|].
  cbn [orb]. fold (projects_url w cfg).
  destruct (urljoin_raises w _ "project"); [done|].
  rewrite bind_run. unfold emit, ret, result, state_after, effects; cbn [fst snd].
  destruct (get_projects w (projects_url w cfg)) as [|status [keys|]];
    [done| |]; by destruct (decide (status = 200)).
Qed.

(** A refresh that fails leaves the state as it was. *)
Lemma update_projects_failed (p : Plugin) :
  projects_url_raises w cfg = true ∨ failed (get_projects w (projects_url w cfg)) →
  _update_projects w cfg p =
    (false, p, if projects_url_raises w cfg then [] else [Get (projects_url w cfg)]).
Proof.
  intros Hfail. rewrite update_projects_run.
  destruct (projects_url_raises w cfg); [done|].
  destruct Hfail as [?|Hfail]; [done|]. unfold failed in Hfail.
  destruct (get_projects w (projects_url w cfg)) as [|status [keys|]]; [done| |].
  - destruct Hfail as [?|?]; [|done]. by rewrite decide_False.
  - done.
Qed.

Lemma issue_matches_nil (message_body : string) :
  Re.findall issue_pattern message_body = [] → issue_matches cfg message_body = [].
Proof.
  unfold issue_matches. intros ->. by destruct (_ && _).
Qed.

Lemma unique_issues_nil (message_body : string) :
  issue_matches cfg message_body = [] → unique_issues cfg message_body = [].
Proof.
  unfold unique_issues. intros ->. cbn.
  destruct (decide _); [|done].
  unfold slice_to. destruct (decide _); apply take_nil.
Qed.

(** [_process_message_for_issues] is the loop over [unique_issues] and,
    when lines came out of it, one reply. *)
Lemma process_message_run (evt : MessageEvent) (p : Plugin) :
  let x := lookup_issues w cfg (unique_issues cfg (body evt)) p in
  _process_message_for_issues w cfg evt p =
    (tt, state_after x,
     effects x ++
       match result x with
       | [] => []
       | _ => [Respond (response_text (body evt) (result x))]
       end).
Proof.
  intros x. subst x. unfold _process_message_for_issues.
  destruct (Re.findall issue_pattern (body evt)) as [|m ms] eqn:Hfound.
  - by rewrite unique_issues_nil by (by apply issue_matches_nil).
  - destruct (issue_matches cfg (body evt)) as [|i is_] eqn:Hleft.
    + by rewrite unique_issues_nil.
    + rewrite bind_run.
      set (x := lookup_issues w cfg _ p).
      destruct (result x); unfold ret, emit, result, state_after, effects;
        cbn [fst snd]; done.
Qed.

Lemma lookup_issue_result (issue_key : string) (p : Plugin) :
  result (lookup_issue w cfg issue_key p) =
    issue_line w cfg issue_key <$> resolves w cfg issue_key p.
Proof.
  rewrite lookup_issue_run. unfold resolves, checked, fetched_line.
  destruct (decide _); [|done]. rewrite cooldown_unfold.
  destruct (live cfg (time_at w issue_key) (_recent_issues p) !! issue_key);
    cbn [fst snd result]; [done|].
  destruct (get_issue w (issue_url w cfg issue_key)) as [|status [title|]];
    [done| |done].
  by destruct (decide (status = 200)).
Qed.

(** The lines of the loop are the lines of the resolved issues. *)
Lemma lookup_issues_result (keys : list string) (p : Plugin) :
  result (lookup_issues w cfg keys p) =
    map (fun kt : string * string => issue_line w cfg kt.1 kt.2) (resolved_issues w cfg keys p).
Proof.
  revert p; induction keys as [|k keys IH]; intros p; [done|].
  rewrite lookup_issues_cons. unfold result at 1; cbn [fst].
  rewrite lookup_issue_result. cbn [resolved_issues].
  destruct (resolves w cfg k p) as [title|]; cbn; by rewrite IH.
Qed.

End Loop.

Lemma on_message_cases (w : World) (cfg : Config) (evt : MessageEvent) (p : Plugin) :
  on_message w cfg evt p = (tt, p, []) ∨
  on_message w cfg evt p = _process_message_for_issues w cfg evt p.
Proof.
  unfold on_message.
  destruct (decide (msgtype evt ≠ TEXT)); [by left|].
  destruct (_is_ignored_user cfg (sender evt)); [by left|].
  destruct (decide (sender evt = mxid w)); [by left|by right].
Qed.

(** ** The cooldown tracker (claims C2 and C9) *)

(** C2, as the specification words it, fails where the second call comes
    exactly one window after the first: an entry is purged when its age
    exceeds the window, so at age 60 with a window of 60 seconds the key is
    still on cooldown and the calls answer (false, true), not
    (false, false). *)
Lemma cooldown_at_window_end_counterexample :
  let cfg := Sample.config 60 5 false false in
  let first := _is_issue_on_cooldown cfg 0 "FOO-1" ∅ in
  let second := _is_issue_on_cooldown cfg 60 "FOO-1" first.2 in
  0 < 60 ∧ 60 - 0 >= issue_cooldown cfg ∧
  (first.1, second.1) = (false, true) ∧ (first.1, second.1) ≠ (false, false).
Proof. vm_compute. repeat split; discriminate. Qed.

(** C2, amended: from a ledger in which [K] has no entry still alive at
    [t0], the call at [t0] answers false and records [t0]; the call at
    [t1 > t0] answers true exactly when [t1 - t0] does not exceed the
    window, false when it does; each call first purges the entries older
    than the window. *)
Theorem cooldown_two_calls (cfg : Config) (K : string) (t0 t1 : Z)
    (recent : gmap string Z) :
  t0 < t1 →
  (∀ ts, recent !! K = Some ts → t0 - ts > issue_cooldown cfg) →
  let first := _is_issue_on_cooldown cfg t0 K recent in
  let second := _is_issue_on_cooldown cfg t1 K first.2 in
  first.1 = false ∧
  first.2 = <[K := t0]> (live cfg t0 recent) ∧
  second.1 = bool_decide (t1 - t0 <= issue_cooldown cfg) ∧
  second.2 = (if bool_decide (t1 - t0 <= issue_cooldown cfg)
              then live cfg t1 first.2
              else <[K := t1]> (live cfg t1 first.2)).
Proof.
  intros _ Hfresh first second.
  assert (Hfirst : first = (false, <[K := t0]> (live cfg t0 recent))).
  { subst first. rewrite cooldown_unfold.
    apply lookup_live_None in Hfresh. by rewrite Hfresh. }
  subst second. rewrite Hfirst. cbn [fst snd].
  rewrite cooldown_unfold.
  destruct (decide (t1 - t0 <= issue_cooldown cfg)) as [Hin|Hout].
  - rewrite (bool_decide_eq_true_2 _ Hin).
    assert (Hk : live cfg t1 (<[K := t0]> (live cfg t0 recent)) !! K = Some t0).
    { apply lookup_live_Some. split; [apply lookup_insert_eq|done]. }
    by rewrite Hk.
  - rewrite (bool_decide_eq_false_2 _ Hout).
    assert (Hk : live cfg t1 (<[K := t0]> (live cfg t0 recent)) !! K = None).
    { apply lookup_live_None. intros ts. rewrite lookup_insert_eq.
      intros [= <-]. lia. }
    by rewrite Hk.
Qed.

Lemma cooldown_two_calls_witness :
  (_is_issue_on_cooldown (Sample.config 60 5 false false) 100 "FOO-1"
     {["FOO-1" := 10]}).1 = false ∧
  (_is_issue_on_cooldown (Sample.config 60 5 false false) 130 "FOO-1"
     (_is_issue_on_cooldown (Sample.config 60 5 false false) 100 "FOO-1"
        {["FOO-1" := 10]}).2).1 = true ∧
  (_is_issue_on_cooldown (Sample.config 60 5 false false) 161 "FOO-1"
     (_is_issue_on_cooldown (Sample.config 60 5 false false) 100 "FOO-1"
        {["FOO-1" := 10]}).2).1 = false.
Proof.
  assert (Hfresh : ∀ ts, ({["FOO-1" := 10]} : gmap string Z) !! "FOO-1" = Some ts →
            100 - ts > issue_cooldown (Sample.config 60 5 false false)).
  { intros ts. rewrite lookup_singleton_eq. intros [= <-]. vm_compute. reflexivity. }
  destruct (cooldown_two_calls (Sample.config 60 5 false false) "FOO-1" 100 130
              {["FOO-1" := 10]}) as (H1 & _ & H3 & _); [lia|exact Hfresh|].
  destruct (cooldown_two_calls (Sample.config 60 5 false false) "FOO-1" 100 161
              {["FOO-1" := 10]}) as (_ & _ & H3' & _); [lia|exact Hfresh|].
  split; [exact H1|]. split.
  - rewrite H3. vm_compute. reflexivity.
  - rewrite H3'. vm_compute. reflexivity.
Defined.

(** C9, as the specification words it, fails for a window that is
    negative: the key just recorded has age 0, which exceeds a window of
    -1, and it is in the ledger after the call. *)
Lemma negative_window_counterexample :
  let cfg := Sample.config (-1) 5 false false in
  let after_call := _is_issue_on_cooldown cfg 100 "FOO-1" ∅ in
  after_call = (false, {["FOO-1" := 100]}) ∧
  after_call.2 !! "FOO-1" = Some 100 ∧
  100 - 100 > issue_cooldown cfg ∧
  ¬ (∀ k ts, after_call.2 !! k = Some ts → 100 - ts <= issue_cooldown cfg).
Proof.
  split; [vm_compute; reflexivity|]. split; [vm_compute; reflexivity|].
  split; [vm_compute; reflexivity|].
  intros H. specialize (H "FOO-1" 100). cbv zeta in H.
  assert (Hk : (_is_issue_on_cooldown (Sample.config (-1) 5 false false) 100 "FOO-1" ∅).2
               !! "FOO-1" = Some 100) by (vm_compute; reflexivity).
  specialize (H Hk). vm_compute in H. by apply H.
Qed.

(** C9, amended: every entry of the ledger a check at [now] leaves is the
    key just recorded, with [now], or an entry that was there and is not
    older than the window: with a window that is not negative, no entry is
    older than the window.  An entry of the checked key that is older than
    the window does not block it: the answer is false and the key is
    recorded anew. *)
Theorem ledger_keeps_no_expired_entry (cfg : Config) (now : Z) (K : string)
    (recent : gmap string Z) :
  let after := _is_issue_on_cooldown cfg now K recent in
  (∀ k ts, after.2 !! k = Some ts →
     (k = K ∧ ts = now) ∨ (recent !! k = Some ts ∧ now - ts <= issue_cooldown cfg)) ∧
  (0 <= issue_cooldown cfg →
     ∀ k ts, after.2 !! k = Some ts → now - ts <= issue_cooldown cfg) ∧
  (∀ ts, recent !! K = Some ts → now - ts > issue_cooldown cfg →
     after = (false, <[K := now]> (live cfg now recent))).
Proof.
  intros after.
  assert (Hentries : ∀ k ts, after.2 !! k = Some ts →
            (k = K ∧ ts = now) ∨
            (recent !! k = Some ts ∧ now - ts <= issue_cooldown cfg)).
  { intros k ts. subst after. rewrite cooldown_unfold.
    destruct (live cfg now recent !! K) as [tk|]; cbn [snd].
    - intros Hk. right. by apply lookup_live_Some.
    - destruct (decide (K = k)) as [<-|Hne].
      + rewrite lookup_insert_eq. intros [= <-]. by left.
      + rewrite lookup_insert_ne by done. intros Hk. right.
        by apply lookup_live_Some. }
  split; [exact Hentries|]. split.
  - intros Hwin k ts Hk. destruct (Hentries k ts Hk) as [[_ ->]|[_ ?]]; lia.
  - intros ts Hts Hage. subst after. rewrite cooldown_unfold.
    assert (HK : live cfg now recent !! K = None).
    { apply lookup_live_None. intros ts'. rewrite Hts. by intros [= <-]. }
    by rewrite HK.
Qed.

Lemma ledger_keeps_no_expired_entry_witness :
  _is_issue_on_cooldown (Sample.config 60 5 false false) 100 "FOO-1"
    {["FOO-1" := 10; "BAR-2" := 90; "ABC-3" := 39]}
  = (false, {["FOO-1" := 100; "BAR-2" := 90]}) ∧
  (∀ k ts,
     (_is_issue_on_cooldown (Sample.config 60 5 false false) 100 "FOO-1"
        {["FOO-1" := 10; "BAR-2" := 90; "ABC-3" := 39]}).2 !! k = Some ts →
     100 - ts <= 60).
Proof.
  destruct (ledger_keeps_no_expired_entry (Sample.config 60 5 false false) 100 "FOO-1"
              {["FOO-1" := 10; "BAR-2" := 90; "ABC-3" := 39]}) as (_ & H2 & H3).
  split.
  - rewrite (H3 10); vm_compute; reflexivity.
  - apply H2. vm_compute. discriminate.
Defined.

(** ** Failed lookups (claims C4 and C10) *)

(** C4: when the lookup of one key of a message fails (the GET raises, the
    status is not 200, or the body cannot be read), that key yields no
    line; the loop goes on with the keys after it; the lines are those of
    the resolved issues before and after it; and the conversation receives
    nothing but the one reply made of these lines. *)
Theorem failed_lookup_is_skipped (w : World) (cfg : Config) (evt : MessageEvent)
    (p : Plugin) (before : list string) (issue_key : string) (after : list string) :
  unique_issues cfg (body evt) = before ++ issue_key :: after →
  failed (get_issue w (issue_url w cfg issue_key)) →
  let x1 := lookup_issues w cfg before p in
  let xk := lookup_issue w cfg issue_key (state_after x1) in
  let x2 := lookup_issues w cfg after (state_after xk) in
  let lines :=
    map (fun kt : string * string => issue_line w cfg kt.1 kt.2)
      (resolved_issues w cfg before p ++ resolved_issues w cfg after (state_after xk)) in
  result xk = None ∧
  sent (effects xk) = [] ∧
  lookup_issues w cfg (unique_issues cfg (body evt)) p =
    (lines, state_after x2, effects x1 ++ effects xk ++ effects x2) ∧
  sent (effects (_process_message_for_issues w cfg evt p)) =
    match lines with
    | [] => []
    | _ => [response_text (body evt) lines]
    end.
Proof.
  intros Hkeys Hfail x1 xk x2 lines.
  assert (Hk : result xk = None).
  { subst xk. rewrite lookup_issue_run.
    destruct (decide _); [|done].
    destruct (checked w cfg issue_key (state_after x1) !! issue_key); [done|].
    cbn [result fst]. by apply fetched_line_failed. }
  assert (Hloop : lookup_issues w cfg (unique_issues cfg (body evt)) p =
            (lines, state_after x2, effects x1 ++ effects xk ++ effects x2)).
  { rewrite Hkeys, lookup_issues_app. fold x1.
    rewrite lookup_issues_cons. fold xk. fold x2.
    unfold result at 2, state_after at 1, effects at 2; cbn [fst snd].
    rewrite Hk. subst lines x1 x2. by rewrite map_app, !lookup_issues_result. }
  split; [exact Hk|]. split; [apply lookup_issue_sent|]. split; [exact Hloop|].
  assert (H1 : sent (effects x1) = []) by apply lookup_issues_sent.
  assert (H2 : sent (effects x2) = []) by apply lookup_issues_sent.
  assert (H3 : sent (effects xk) = []) by apply lookup_issue_sent.
  rewrite process_message_run, Hloop.
  unfold result, effects in *; cbn [fst snd].
  rewrite !sent_app, H1, H2, H3. by destruct lines.
Qed.

(** C10: a key of a known project that is not on cooldown is in the ledger,
    with the time of the check, in the state [_fetch_issue_info] starts
    from; the fetch leaves that state as it is, whatever its outcome; when
    it fails there is no line; and a later mention within the window makes
    no request and yields no line. *)
Theorem cooldown_recorded_before_fetch (w : World) (cfg : Config)
    (issue_key : string) (p : Plugin) :
  Str.split_head "-" issue_key ∈ _projects p →
  (_is_issue_on_cooldown cfg (time_at w issue_key) issue_key (_recent_issues p)).1 = false →
  let marked := state_after (is_issue_on_cooldown w cfg issue_key p) in
  let x := lookup_issue w cfg issue_key p in
  _recent_issues marked !! issue_key = Some (time_at w issue_key) ∧
  x = _fetch_issue_info w cfg issue_key marked ∧
  state_after x = marked ∧
  (failed (get_issue w (issue_url w cfg issue_key)) → result x = None) ∧
  (∀ later : World,
     time_at later issue_key - time_at w issue_key <= issue_cooldown cfg →
     result (lookup_issue later cfg issue_key (state_after x)) = None ∧
     effects (lookup_issue later cfg issue_key (state_after x)) = []) ∧
  (∀ (later : World) (evt : MessageEvent),
     unique_issues cfg (body evt) = [issue_key] →
     time_at later issue_key - time_at w issue_key <= issue_cooldown cfg →
     effects (on_message later cfg evt (state_after x)) = []).
Proof.
  intros Hproj Hfree marked x.
  rewrite cooldown_unfold in Hfree.
  assert (Hmarked : marked =
            {| _projects := _projects p;
               _recent_issues :=
                 <[issue_key := time_at w issue_key]> (checked w cfg issue_key p) |}).
  { subst marked. unfold is_issue_on_cooldown, checked. rewrite cooldown_unfold.
    by destruct (live cfg (time_at w issue_key) (_recent_issues p) !! issue_key). }
  assert (Hx : x = _fetch_issue_info w cfg issue_key marked).
  { subst x. rewrite lookup_issue_run, decide_True by done.
    rewrite fetch_issue_info_run, Hmarked. unfold checked.
    by destruct (live cfg (time_at w issue_key) (_recent_issues p) !! issue_key). }
  assert (Hstate : state_after x = marked).
  { by rewrite Hx, fetch_issue_info_run. }
  assert (Hlater : ∀ later : World,
            time_at later issue_key - time_at w issue_key <= issue_cooldown cfg →
            result (lookup_issue later cfg issue_key (state_after x)) = None ∧
            effects (lookup_issue later cfg issue_key (state_after x)) = []).
  { intros later Hsoon. rewrite Hstate, lookup_issue_run.
    rewrite decide_True by (by rewrite Hmarked).
    assert (Hk : checked later cfg issue_key marked !! issue_key
                 = Some (time_at w issue_key)).
    { unfold checked. apply lookup_live_Some. rewrite Hmarked; cbn.
      split; [apply lookup_insert_eq|done]. }
    by rewrite Hk. }
  split; [by rewrite Hmarked; apply lookup_insert_eq|].
  split; [exact Hx|]. split; [exact Hstate|]. split; [|split; [exact Hlater|]].
  - intros Hfail. rewrite Hx, fetch_issue_info_run. cbn [result fst].
    by apply fetched_line_failed.
  - intros later evt Hkeys Hsoon.
    destruct (on_message_cases later cfg evt (state_after x)) as [->| ->]; [done|].
    rewrite process_message_run, Hkeys, lookup_issues_cons.
    destruct (Hlater later Hsoon) as [-> ->]. done.
Qed.

Lemma failed_lookup_is_skipped_witness :
  let w := Sample.world
             (fun url => if decide (url = "https://tracker/rest/api/2/issue/FOO-1")
                         then Answer 404 None else Answer 200 (Some "Fix login bug"))
             Raised 1000 in
  let cfg := Sample.config 60 5 false true in
  let evt := Sample.message "@alice:example.org" "FOO-1 is like BAR-2" in
  let p := Sample.plugin ["FOO"; "BAR"] ∅ in
  effects (_process_message_for_issues w cfg evt p) =
    [Get "https://tracker/rest/api/2/issue/FOO-1";
     Get "https://tracker/rest/api/2/issue/BAR-2";
     Respond "BAR-2: Fix login bug"] ∧
  sent (effects (_process_message_for_issues w cfg evt p)) = ["BAR-2: Fix login bug"].
Proof.
  split; [vm_compute; reflexivity|].
  destruct (failed_lookup_is_skipped
              (Sample.world
                 (fun url => if decide (url = "https://tracker/rest/api/2/issue/FOO-1")
                             then Answer 404 None else Answer 200 (Some "Fix login bug"))
                 Raised 1000)
              (Sample.config 60 5 false true)
              (Sample.message "@alice:example.org" "FOO-1 is like BAR-2")
              (Sample.plugin ["FOO"; "BAR"] ∅)
              [] "FOO-1" ["BAR-2"]) as (_ & _ & _ & H).
  - vm_compute. reflexivity.
  - vm_compute. right. reflexivity.
  - rewrite H. vm_compute. reflexivity.
Defined.

Lemma cooldown_recorded_before_fetch_witness :
  let w := Sample.world (fun _ => Answer 500 None) Raised 1000 in
  let later := Sample.world (fun _ => Answer 200 (Some "Fix login bug")) Raised 1060 in
  let cfg := Sample.config 60 5 false true in
  let p := Sample.plugin ["FOO"] ∅ in
  let x := lookup_issue w cfg "FOO-1" p in
  x = (None, Sample.plugin ["FOO"] {["FOO-1" := 1000]},
       [Get "https://tracker/rest/api/2/issue/FOO-1"]) ∧
  lookup_issue later cfg "FOO-1" (state_after x) =
    (None, Sample.plugin ["FOO"] {["FOO-1" := 1000]}, []) ∧
  effects (lookup_issue later cfg "FOO-1" (state_after x)) = [].
Proof.
  split; [vm_compute; reflexivity|]. split; [vm_compute; reflexivity|].
  destruct (cooldown_recorded_before_fetch
              (Sample.world (fun _ => Answer 500 None) Raised 1000)
              (Sample.config 60 5 false true) "FOO-1"
              (Sample.plugin ["FOO"] ∅)) as (_ & _ & _ & _ & H & _).
  - vm_compute. constructor.
  - vm_compute. reflexivity.
  - apply (H (Sample.world (fun _ => Answer 200 (Some "Fix login bug")) Raised 1060)).
    vm_compute. discriminate.
Defined.

(** ** The reply (claim C6) *)

(** The characters that [str.lower()] sends to those of the marker. *)
Lemma lower_marker_chars (c : ascii) :
  ("["%char = Char.lower c → c = "["%char) ∧
  ("o"%char = Char.lower c → c = "o"%char ∨ c = "O"%char) ∧
  ("f"%char = Char.lower c → c = "f"%char ∨ c = "F"%char) ∧
  ("]"%char = Char.lower c → c = "]"%char).
Proof.
  destruct c as [[] [] [] [] [] [] [] []]; vm_compute;
    repeat split; intros H; try discriminate H; auto.
Qed.

(** The test on the body holds for the marker in any case of its letters:
    [[off]], [[Off]], [[OFF]] and so on. *)
Lemma starts_with_off (s : string) :
  Str.startswith "[off]" (Str.lower s) = true ↔
  ∃ o f1 f2 rest,
    s = String "[" (String o (String f1 (String f2 (String "]" rest)))) ∧
    (o = "o"%char ∨ o = "O"%char) ∧
    (f1 = "f"%char ∨ f1 = "F"%char) ∧
    (f2 = "f"%char ∨ f2 = "F"%char).
Proof.
  split.
  - destruct s as [|c1 [|c2 [|c3 [|c4 [|c5 rest]]]]];
      cbn [Str.lower Str.startswith]; intros H;
      repeat match type of H with
             | context [decide ?P] => destruct (decide P) as [?|?]
             end;
      try discriminate H.
    destruct (lower_marker_chars c1) as (H1 & _).
    destruct (lower_marker_chars c2) as (_ & H2 & _).
    destruct (lower_marker_chars c3) as (_ & _ & H3 & _).
    destruct (lower_marker_chars c4) as (_ & _ & H4 & _).
    destruct (lower_marker_chars c5) as (_ & _ & _ & H5).
    exists c2, c3, c4, rest. rewrite (H1 ltac:(done)), (H5 ltac:(done)). auto.
  - intros (o & f1 & f2 & rest & -> & Ho & Hf1 & Hf2).
    destruct Ho as [-> | ->], Hf1 as [-> | ->], Hf2 as [-> | ->]; reflexivity.
Qed.

(** C6: when issues of a message resolve, the one text sent is their lines
    joined with newlines; a line is [key: title], or with [include_url]
    [[key](url): title] where [url] is [urljoin] of the base URL and
    [browse/key]; when the lowercased body starts with "[off]", each line
    has "[off] " put before it. *)
Theorem reply_is_joined_lines (w : World) (cfg : Config) (evt : MessageEvent)
    (p : Plugin) :
  let resolved := resolved_issues w cfg (unique_issues cfg (body evt)) p in
  let line (kt : string * string) :=
    if include_url cfg
    then "[" +:+ kt.1 +:+ "](" +:+ urljoin w (jira_url cfg) ("browse/" +:+ kt.1)
         +:+ "): " +:+ kt.2
    else kt.1 +:+ ": " +:+ kt.2 in
  let marked (l : string) :=
    if Str.startswith "[off]" (Str.lower (body evt)) then "[off] " +:+ l else l in
  resolved ≠ [] →
  sent (effects (_process_message_for_issues w cfg evt p)) =
    [Str.join newline (map (fun kt => marked (line kt)) resolved)].
Proof.
  intros resolved line marked Hsome.
  rewrite process_message_run. unfold effects at 1; cbn [snd].
  rewrite sent_app, lookup_issues_sent, lookup_issues_result. fold resolved.
  assert (Hline : ∀ kt : string * string, issue_line w cfg kt.1 kt.2 = line kt).
  { intros kt. unfold issue_line. subst line. cbn beta.
    by destruct (include_url cfg). }
  rewrite (map_ext _ line) by exact Hline.
  destruct resolved as [|kt rest]; [done|].
  cbn [map app sent]. f_equal. unfold response_text. subst marked. cbn beta.
  destruct (Str.startswith "[off]" (Str.lower (body evt))).
  - by rewrite <- (map_map line (fun l => "[off] " +:+ l)).
  - by rewrite <- (map_map line (fun l => l)), map_id.
Qed.

Lemma reply_is_joined_lines_witness :
  let w := Sample.world (fun _ => Answer 200 (Some "Fix login bug")) Raised 1000 in
  let cfg := Sample.config 60 5 true true in
  let evt := Sample.message "@alice:example.org" "[Off] see JIRA-42 and ABC-1, JIRA-42" in
  let p := Sample.plugin ["JIRA"; "ABC"] ∅ in
  sent (effects (_process_message_for_issues w cfg evt p)) =
    ["[off] [JIRA-42](https://tracker/browse/JIRA-42): Fix login bug" +:+ newline +:+
     "[off] [ABC-1](https://tracker/browse/ABC-1): Fix login bug"].
Proof.
  cbv zeta.
  rewrite (reply_is_joined_lines
             (Sample.world (fun _ => Answer 200 (Some "Fix login bug")) Raised 1000)
             (Sample.config 60 5 true true)
             (Sample.message "@alice:example.org" "[Off] see JIRA-42 and ABC-1, JIRA-42")
             (Sample.plugin ["JIRA"; "ABC"] ∅)).
  - vm_compute. reflexivity.
  - vm_compute. discriminate.
Defined.

(** ** The gate of [on_message] (claim C7) *)

Lemma is_ignored_user_spec (cfg : Config) (user_id : string) :
  _is_ignored_user cfg user_id = true ↔
  username user_id ∈ map Str.strip (ignored_users cfg).
Proof.
  unfold _is_ignored_user. destruct (ignored_users cfg) as [|nick nicks].
  - split; [done|]. intros H. by apply elem_of_nil in H.
  - apply bool_decide_eq_true.
Qed.

(** The name taken from a Matrix ID [@local:server] is [local]. *)
Lemma username_of_mxid (localpart server : string) :
  Str.split_head ":" localpart = localpart →
  Str.lstrip (fun c => bool_decide (c = "@"%char)) localpart = localpart →
  username ("@" +:+ localpart +:+ ":" +:+ server) = localpart.
Proof.
  intros Hcolon Hat. unfold username.
  change ("@" +:+ localpart +:+ ":" +:+ server)
    with (String "@" (localpart +:+ String ":" server)).
  assert (Hsplit : ∀ l, Str.split_head ":" l = l →
            Str.split_head ":" (l +:+ String ":" server) = l).
  { induction l as [|c l IH].
    - intros _. change ("" +:+ String ":" server) with (String ":" server).
      cbn [Str.split_head]. by rewrite decide_True.
    - change (String c l +:+ String ":" server) with (String c (l +:+ String ":" server)).
      cbn [Str.split_head]. destruct (decide (c = ":"%char)); [done|].
      intros [= Hl]. by rewrite IH. }
  cbn [Str.split_head]. rewrite decide_False by discriminate.
  rewrite Hsplit by done. cbn [Str.lstrip].
  by rewrite bool_decide_eq_true_2.
Qed.

(** C7: a message that is not plain text, or whose sender's name is among
    the trimmed entries of [ignored_users], or whose sender is the bot
    itself, is dropped whatever its text: the state stays as it was,
    nothing is requested from the tracker, nothing is sent. *)
Theorem rejected_message_is_not_processed (w : World) (cfg : Config)
    (type : MessageType) (from text : string) (p : Plugin) :
  type ≠ TEXT ∨ username from ∈ map Str.strip (ignored_users cfg) ∨ from = mxid w →
  on_message w cfg {| msgtype := type; sender := from; body := text |} p = (tt, p, []).
Proof.
  intros Hwhy. unfold on_message; cbn [msgtype sender].
  destruct (decide (type ≠ TEXT)); [done|].
  destruct (_is_ignored_user cfg from) eqn:Hignored; [done|].
  destruct (decide (from = mxid w)); [done|].
  destruct Hwhy as [?|[Hin|?]]; [done| |done].
  apply is_ignored_user_spec in Hin. congruence.
Qed.

Lemma rejected_message_is_not_processed_witness :
  let w := Sample.world (fun _ => Answer 200 (Some "Fix login bug")) Raised 1000 in
  let cfg := Sample.config 60 5 true true in
  let p := Sample.plugin ["JIRA"] ∅ in
  username "@bob:example.org" = "bob" ∧
  on_message w cfg (Sample.message "@bob:example.org" "Check JIRA-42 please") p = (tt, p, []) ∧
  effects (on_message w cfg (Sample.message "@Bob:example.org" "Check JIRA-42 please") p) =
    [Get "https://tracker/rest/api/2/issue/JIRA-42";
     Respond "[JIRA-42](https://tracker/browse/JIRA-42): Fix login bug"].
Proof.
  split; [vm_compute; reflexivity|]. split; [|vm_compute; reflexivity].
  apply (rejected_message_is_not_processed
           (Sample.world (fun _ => Answer 200 (Some "Fix login bug")) Raised 1000)
           (Sample.config 60 5 true true) TEXT "@bob:example.org"
           "Check JIRA-42 please" (Sample.plugin ["JIRA"] ∅)).
  right; left. vm_compute. constructor.
Defined.

(** ** Unknown projects (claim C8) *)

(** C8: when the one key of a message has a project that is not in the
    list, the message changes nothing, requests nothing and gets no reply;
    the same holds for every message while the list is empty, and the list
    is empty after a refresh that failed at startup. *)
Theorem unknown_project_gets_no_reply (w : World) (cfg : Config)
    (evt : MessageEvent) (p : Plugin) :
  (∀ issue_key,
     unique_issues cfg (body evt) = [issue_key] →
     Str.split_head "-" issue_key ∉ _projects p →
     on_message w cfg evt p = (tt, p, [])) ∧
  (_projects p = [] → on_message w cfg evt p = (tt, p, [])) ∧
  (∀ (w0 : World) (cfg0 : Config),
     failed (get_projects w0 (projects_url w0 cfg0)) →
     state_after (_load_projects w0 cfg0 init) = init ∧
     on_message w cfg evt (state_after (_load_projects w0 cfg0 init)) = (tt, init, [])).
Proof.
  assert (Hunknown : Forall (fun k => Str.split_head "-" k ∉ _projects p)
                       (unique_issues cfg (body evt)) →
                     on_message w cfg evt p = (tt, p, [])).
  { intros Hall. destruct (on_message_cases w cfg evt p) as [->| ->]; [done|].
    rewrite process_message_run. by rewrite lookup_issues_unknown. }
  assert (Hempty : ∀ q, _projects q = [] → on_message w cfg evt q = (tt, q, [])).
  { intros q Hq. destruct (on_message_cases w cfg evt q) as [->| ->]; [done|].
    rewrite process_message_run. rewrite lookup_issues_unknown; [done|].
    apply Forall_forall. intros k _. rewrite Hq. apply not_elem_of_nil. }
  split; [|split].
  - intros k Hk Hnot. apply Hunknown. rewrite Hk. by apply Forall_singleton.
  - apply Hempty.
  - intros w0 cfg0 Hfail.
    assert (Hstart : state_after (_load_projects w0 cfg0 init) = init).
    { unfold _load_projects. cbn [_projects init]. rewrite bind_run.
      by rewrite update_projects_failed by (by right). }
    split; [exact Hstart|]. rewrite Hstart. by apply Hempty.
Qed.

Lemma unknown_project_gets_no_reply_witness :
  let w := Sample.world (fun _ => Answer 200 (Some "Fix login bug")) (Answer 503 None) 1000 in
  let cfg := Sample.config 60 5 true true in
  unique_issues cfg "ZZZ-9" = ["ZZZ-9"] ∧
  on_message w cfg (Sample.message "@alice:example.org" "ZZZ-9")
    (Sample.plugin ["JIRA"] ∅) = (tt, Sample.plugin ["JIRA"] ∅, []) ∧
  on_message w cfg (Sample.message "@alice:example.org" "Check JIRA-42 please")
    (state_after (_load_projects w cfg init)) = (tt, init, []).
Proof.
  split; [vm_compute; reflexivity|].
  destruct (unknown_project_gets_no_reply
              (Sample.world (fun _ => Answer 200 (Some "Fix login bug")) (Answer 503 None) 1000)
              (Sample.config 60 5 true true)
              (Sample.message "@alice:example.org" "ZZZ-9")
              (Sample.plugin ["JIRA"] ∅)) as (H1 & _ & _).
  destruct (unknown_project_gets_no_reply
              (Sample.world (fun _ => Answer 200 (Some "Fix login bug")) (Answer 503 None) 1000)
              (Sample.config 60 5 true true)
              (Sample.message "@alice:example.org" "Check JIRA-42 please")
              (Sample.plugin ["JIRA"] ∅)) as (_ & _ & H3).
  split.
  - apply (H1 "ZZZ-9"); [vm_compute; reflexivity|].
    vm_compute. intros H. inversion H as [|? ? ? H']. inversion H'.
  - apply (H3 (Sample.world (fun _ => Answer 200 (Some "Fix login bug")) (Answer 503 None) 1000)
              (Sample.config 60 5 true true)).
    vm_compute. left. discriminate.
Defined.

(** ** Refreshing the project list (claim C5) *)

(** A body that is not a list is read without an exception only when it
    is the empty object or the empty string, and then as no project at
    all. *)
Lemma unlisted_body_read (projects_data : json) (keys : list json) :
  (∀ items, projects_data ≠ JArray items) →
  project_keys projects_data = Some keys →
  keys = [] ∧ (projects_data = JObject [] ∨ projects_data = JString "").
Proof.
  intros Hnot. unfold project_keys.
  destruct projects_data as [|b|n|s|items|fields]; cbn [iterate]; try done.
  - destruct s as [|c s]; [intros [= <-]; by auto|]. cbn. done.
  - by destruct (Hnot items).
  - destruct fields as [|[name v] fields]; [intros [= <-]; by auto|].
    unfold fromkeys. cbn. rewrite decide_False by apply not_elem_of_nil. cbn. done.
Qed.

(** C5, as the specification words it, fails for a body that is malformed
    and yet read without an exception: the tracker answers 200 with the
    empty JSON object instead of a list of projects; the reading of line
    189 yields the empty list, the project list held is replaced by it and
    the reply reports success with 0 projects. *)
Lemma malformed_body_wipes_projects_counterexample :
  let cfg := Sample.config 60 5 true true in
  let p := Sample.plugin ["OLD"; "JIRA"] {["JIRA-1" := 990]} in
  let w := Sample.world (fun _ => Raised) (Answer 200 (Some [])) 1000 in
  reads_as (JObject []) (Some []) ∧
  update_projects w cfg p =
    (tt, Sample.plugin [] {["JIRA-1" := 990]},
     [Get "https://tracker/rest/api/2/project";
      Respond "Successfully updated projects list. Found 0 projects."]) ∧
  _projects (state_after (update_projects w cfg p)) ≠ _projects p.
Proof. vm_compute. repeat split. discriminate. Qed.

(** C5, amended: when the URL can be built and the tracker answers 200 with
    a body that is read without an exception, [!jira update] puts the keys
    read in the place of the old list, whatever they are, and replies with
    their number; when the request raises, the status is not 200 or
    reading the body raises, or when the URL cannot be built (and then
    without a request), the state is left as it was and the reply says
    that the update failed. *)
Theorem refresh_replaces_or_keeps (w : World) (cfg : Config) (p : Plugin) :
  (projects_url_raises w cfg = false →
   ∀ keys,
     get_projects w (projects_url w cfg) = Answer 200 (Some keys) →
     _update_projects w cfg p =
       (true, {| _projects := keys; _recent_issues := _recent_issues p |},
        [Get (projects_url w cfg)]) ∧
     update_projects w cfg p =
       (tt, {| _projects := keys; _recent_issues := _recent_issues p |},
        [Get (projects_url w cfg);
         Respond ("Successfully updated projects list. Found "
                  +:+ pretty (length keys) +:+ " projects.")])) ∧
  (projects_url_raises w cfg = false →
   failed (get_projects w (projects_url w cfg)) →
     _update_projects w cfg p = (false, p, [Get (projects_url w cfg)]) ∧
     update_projects w cfg p =
       (tt, p,
        [Get (projects_url w cfg);
         Respond "Failed to update projects list. Check logs for details."])) ∧
  (projects_url_raises w cfg = true →
     _update_projects w cfg p = (false, p, []) ∧
     update_projects w cfg p =
       (tt, p, [Respond "Failed to update projects list. Check logs for details."])).
Proof.
  split; [|split].
  - intros Hurl keys Hok.
    assert (Hup : _update_projects w cfg p =
              (true, {| _projects := keys; _recent_issues := _recent_issues p |},
               [Get (projects_url w cfg)])).
    { rewrite update_projects_run, Hurl, Hok. by rewrite decide_True. }
    split; [exact Hup|]. unfold update_projects. rewrite bind_run, Hup. done.
  - intros Hurl Hfail.
    assert (Hup : _update_projects w cfg p = (false, p, [Get (projects_url w cfg)])).
    { rewrite update_projects_failed by (by right). by rewrite Hurl. }
    split; [exact Hup|]. unfold update_projects. rewrite bind_run, Hup. done.
  - intros Hurl.
    assert (Hup : _update_projects w cfg p = (false, p, [])).
    { rewrite update_projects_failed by (by left). by rewrite Hurl. }
    split; [exact Hup|]. unfold update_projects. rewrite bind_run, Hup. done.
Qed.

Lemma refresh_replaces_or_keeps_witness :
  update_projects
    (Sample.world (fun _ => Raised) (Answer 200 (Some ["JIRA"; "ABC"; "FOO"])) 1000)
    (Sample.config 60 5 true true)
    (Sample.plugin ["OLD"; "JIRA"] {["JIRA-1" := 990]}) =
    (tt, Sample.plugin ["JIRA"; "ABC"; "FOO"] {["JIRA-1" := 990]},
     [Get "https://tracker/rest/api/2/project";
      Respond "Successfully updated projects list. Found 3 projects."]) ∧
  update_projects
    (Sample.world (fun _ => Raised) (Answer 200 None) 1000)
    (Sample.config 60 5 true true)
    (Sample.plugin ["OLD"; "JIRA"] {["JIRA-1" := 990]}) =
    (tt, Sample.plugin ["OLD"; "JIRA"] {["JIRA-1" := 990]},
     [Get "https://tracker/rest/api/2/project";
      Respond "Failed to update projects list. Check logs for details."]) ∧
  update_projects
    (Sample.broken_world (fun _ => Raised) (Answer 200 (Some ["JIRA"])) 1000)
    (Sample.config 60 5 true true)
    (Sample.plugin ["OLD"; "JIRA"] {["JIRA-1" := 990]}) =
    (tt, Sample.plugin ["OLD"; "JIRA"] {["JIRA-1" := 990]},
     [Respond "Failed to update projects list. Check logs for details."]).
Proof.
  split; [|split].
  - destruct (refresh_replaces_or_keeps
                (Sample.world (fun _ => Raised) (Answer 200 (Some ["JIRA"; "ABC"; "FOO"])) 1000)
                (Sample.config 60 5 true true)
                (Sample.plugin ["OLD"; "JIRA"] {["JIRA-1" := 990]})) as (H & _ & _).
    destruct (H eq_refl ["JIRA"; "ABC"; "FOO"]) as [_ ->]; [reflexivity|].
    vm_compute. reflexivity.
  - destruct (refresh_replaces_or_keeps
                (Sample.world (fun _ => Raised) (Answer 200 None) 1000)
                (Sample.config 60 5 true true)
                (Sample.plugin ["OLD"; "JIRA"] {["JIRA-1" := 990]})) as (_ & H & _).
    destruct (H eq_refl) as [_ ->]; [right; reflexivity|].
    vm_compute. reflexivity.
  - destruct (refresh_replaces_or_keeps
                (Sample.broken_world (fun _ => Raised) (Answer 200 (Some ["JIRA"])) 1000)
                (Sample.config 60 5 true true)
                (Sample.plugin ["OLD"; "JIRA"] {["JIRA-1" := 990]})) as (_ & _ & H).
    destruct (H eq_refl) as [_ ->]. reflexivity.
Defined.

(** ** The extractor (claims C1 and C3) *)

Lemma list_remove_length (x : string) (l : list string) :
  (length (list_remove x l) ≤ length l)%nat.
Proof.
  induction l as [|y l IH]; cbn; [done|].
  destruct (decide (x = y)); cbn; lia.
Qed.

Lemma list_remove_sublist (x : string) (l : list string) :
  list_remove x l `sublist_of` l.
Proof.
  induction l as [|y l IH]; cbn; [done|].
  destruct (decide (x = y)); [by apply sublist_cons|by apply sublist_skip].
Qed.

Lemma elem_of_list_remove_ne (x y : string) (l : list string) :
  x ≠ y → x ∈ l → x ∈ list_remove y l.
Proof.
  intros Hne. induction l as [|z l IH]; cbn; [done|].
  intros [->|Hin]%elem_of_cons.
  - rewrite decide_False by done. apply list_elem_of_here.
  - destruct (decide (y = z)); [done|]. apply list_elem_of_further. by apply IH.
Qed.

(** The rounds of the removal loop never outnumber the items left to
    visit: any fuel from there on gives the same list. *)
Lemma remove_url_issues_fuel (message_body : string) (fuel1 fuel2 i : nat)
    (l : list string) :
  (length l - i ≤ fuel1)%nat → (length l - i ≤ fuel2)%nat →
  remove_url_issues message_body fuel1 i l = remove_url_issues message_body fuel2 i l.
Proof.
  revert fuel2 i l. induction fuel1 as [|fuel1 IH]; intros fuel2 i l H1 H2.
  - assert (Hend : l !! i = None) by (apply lookup_ge_None; lia).
    destruct fuel2; cbn; [done|]. by rewrite Hend.
  - destruct fuel2 as [|fuel2].
    + assert (Hend : l !! i = None) by (apply lookup_ge_None; lia).
      cbn. by rewrite Hend.
    + cbn. destruct (l !! i) as [issue|] eqn:Hi; [|done].
      apply lookup_lt_Some in Hi.
      destruct (Re.search (issue_in_url_pattern issue) message_body).
      * pose proof (list_remove_length issue l). apply IH; lia.
      * apply IH; lia.
Qed.

(** The loop as the source runs it, until the iterator is exhausted, is the
    loop with the length of the list as fuel. *)
Lemma remove_url_issues_enough (message_body : string) (fuel : nat) (l : list string) :
  (length l ≤ fuel)%nat →
  remove_url_issues message_body fuel 0 l
  = remove_url_issues message_body (length l) 0 l.
Proof. intros H. apply remove_url_issues_fuel; lia. Qed.

Lemma remove_url_issues_sublist (message_body : string) (fuel i : nat)
    (l : list string) :
  remove_url_issues message_body fuel i l `sublist_of` l.
Proof.
  revert i l. induction fuel as [|fuel IH]; intros i l; cbn; [done|].
  destruct (l !! i) as [issue|]; [|done].
  destruct (Re.search (issue_in_url_pattern issue) message_body); [|apply IH].
  etrans; [apply IH|apply list_remove_sublist].
Qed.

(** A candidate that no URL of the text ends in stays. *)
Lemma remove_url_issues_keeps (message_body : string) (fuel i : nat)
    (l : list string) (x : string) :
  Re.search (issue_in_url_pattern x) message_body = false →
  x ∈ l → x ∈ remove_url_issues message_body fuel i l.
Proof.
  intros Hx. revert i l. induction fuel as [|fuel IH]; intros i l Hin; cbn; [done|].
  destruct (l !! i) as [issue|]; [|done].
  destruct (Re.search (issue_in_url_pattern issue) message_body) eqn:Hissue;
    [|by apply IH].
  apply IH. apply elem_of_list_remove_ne; [|done]. congruence.
Qed.

Lemma elem_of_fromkeys_from (seen l : list string) (x : string) :
  x ∈ fromkeys_from seen l ↔ x ∈ l ∧ x ∉ seen.
Proof.
  revert seen. induction l as [|y l IH]; intros seen; cbn.
  - split; [by intros ?%elem_of_nil|by intros [?%elem_of_nil _]].
  - destruct (decide (y ∈ seen)) as [Hy|Hy].
    + rewrite IH, elem_of_cons. split.
      * intros [Hl Hs]. split; [by right|exact Hs].
      * intros [[->|Hl] Hs]; [done|by split].
    + rewrite !elem_of_cons, IH, elem_of_cons. split.
      * intros [->|[Hl Hs]]; [by split; [left|]|].
        split; [by right|]. intros Hx. apply Hs. by right.
      * intros [[->|Hl] Hs]; [by left|].
        destruct (decide (x = y)) as [->|Hne]; [by left|]. right.
        split; [exact Hl|]. intros [Hx|Hx]; [done|by apply Hs].
Qed.

Lemma fromkeys_from_NoDup (seen l : list string) : NoDup (fromkeys_from seen l).
Proof.
  revert seen. induction l as [|y l IH]; intros seen; cbn; [constructor|].
  destruct (decide (y ∈ seen)); [apply IH|].
  apply NoDup_cons. split; [|apply IH].
  rewrite elem_of_fromkeys_from. intros [_ Hy]. apply Hy, list_elem_of_here.
Qed.

Lemma fromkeys_from_sublist (seen l : list string) :
  fromkeys_from seen l `sublist_of` l.
Proof.
  revert seen. induction l as [|y l IH]; intros seen; cbn; [done|].
  destruct (decide (y ∈ seen)); [by apply sublist_cons|by apply sublist_skip].
Qed.

Lemma fromkeys_from_ext (seen1 seen2 l : list string) :
  (∀ x, x ∈ seen1 ↔ x ∈ seen2) → fromkeys_from seen1 l = fromkeys_from seen2 l.
Proof.
  revert seen1 seen2. induction l as [|y l IH]; intros seen1 seen2 Hsame; cbn; [done|].
  destruct (decide (y ∈ seen1)) as [H1|H1], (decide (y ∈ seen2)) as [H2|H2].
  - by apply IH.
  - by apply Hsame in H1.
  - by apply Hsame in H2.
  - f_equal. apply IH. intros x. rewrite !elem_of_cons.
    split; (intros [Hx|Hx]; [by left|right; by apply Hsame]).
Qed.

Lemma filter_all (P : string → Prop) `{!∀ x, Decision (P x)} (l : list string) :
  Forall P l → filter P l = l.
Proof.
  induction 1 as [|x l Hx _ IH]; [done|].
  by rewrite filter_cons_True, IH.
Qed.

Lemma fromkeys_from_seen (a : string) (seen l : list string) :
  fromkeys_from (a :: seen) l = filter (fun x => x ≠ a) (fromkeys_from seen l).
Proof.
  revert seen. induction l as [|y l IH]; intros seen; cbn; [done|].
  destruct (decide (y ∈ seen)) as [Hy|Hy].
  - rewrite decide_True by (by apply list_elem_of_further). apply IH.
  - destruct (decide (y = a)) as [->|Hne].
    + rewrite decide_True by apply list_elem_of_here.
      rewrite filter_cons_False by (by intros ?).
      symmetry. apply filter_all. apply Forall_forall. intros x Hx.
      apply elem_of_fromkeys_from in Hx as [_ Hx]. intros ->.
      apply Hx, list_elem_of_here.
    + rewrite decide_False by (intros [?|?]%elem_of_cons; done).
      rewrite filter_cons_True by done. f_equal.
      rewrite <- IH. apply fromkeys_from_ext.
      intros x. rewrite !elem_of_cons.
      split; (intros [Hx|[Hx|Hx]]; [right; by left|by left|right; by right]).
Qed.

(** [dict.fromkeys] keeps each key at its first occurrence: the head stays
    first and is dropped from what the rest yields. *)
Lemma fromkeys_cons (x : string) (l : list string) :
  fromkeys (x :: l) = x :: filter (fun y => y ≠ x) (fromkeys l).
Proof.
  unfold fromkeys. cbn. rewrite decide_False by apply not_elem_of_nil.
  by rewrite fromkeys_from_seen.
Qed.

Lemma slice_to_sublist {A : Type} (n : Z) (l : list A) : slice_to n l `sublist_of` l.
Proof. unfold slice_to. destruct (decide (n < 0)); apply sublist_take. Qed.

Lemma slice_to_length {A : Type} (n : Z) (l : list A) :
  0 <= n → Z.of_nat (length (slice_to n l)) <= n.
Proof.
  intros Hn. unfold slice_to. rewrite decide_False by lia.
  rewrite length_take. lia.
Qed.

Section Extractor.

Context (cfg : Config).

Lemma issue_matches_sublist (message_body : string) :
  issue_matches cfg message_body `sublist_of` Re.findall issue_pattern message_body.
Proof.
  unfold issue_matches. destruct (_ && _); [apply remove_url_issues_sublist|done].
Qed.

(** The keys the loop visits are distinct. *)
Lemma unique_issues_NoDup (message_body : string) :
  NoDup (unique_issues cfg message_body).
Proof.
  unfold unique_issues. destruct (decide _).
  - eapply sublist_NoDup; [apply fromkeys_from_NoDup|apply slice_to_sublist].
  - apply fromkeys_from_NoDup.
Qed.

(** They are matches of the pattern, in the order of the text. *)
Lemma unique_issues_sublist (message_body : string) :
  unique_issues cfg message_body `sublist_of` Re.findall issue_pattern message_body.
Proof.
  etrans; [|apply issue_matches_sublist].
  unfold unique_issues. destruct (decide _).
  - etrans; [apply slice_to_sublist|apply fromkeys_from_sublist].
  - apply fromkeys_from_sublist.
Qed.

(** There are at most [max_issues_per_message] of them when that number
    is not negative. *)
Lemma unique_issues_length (message_body : string) :
  0 <= max_issues_per_message cfg →
  Z.of_nat (length (unique_issues cfg message_body)) <= max_issues_per_message cfg.
Proof.
  intros Hmax. unfold unique_issues. destruct (decide _) as [Hlong|Hshort].
  - by apply slice_to_length.
  - lia.
Qed.

(** When URLs are answered too, the keys are the matches of the pattern,
    each at its first occurrence, cut at the maximum. *)
Lemma unique_issues_respond_to_urls (message_body : string) :
  respond_to_urls cfg = true →
  unique_issues cfg message_body =
    let unique := fromkeys (Re.findall issue_pattern message_body) in
    if decide (Z.of_nat (length unique) > max_issues_per_message cfg)
    then slice_to (max_issues_per_message cfg) unique else unique.
Proof.
  intros Hurls. unfold unique_issues, issue_matches. by rewrite Hurls.
Qed.

(** A match that no URL of the text ends in is among the candidates left
    after the URL check. *)
Lemma issue_matches_keeps (message_body issue : string) :
  issue ∈ Re.findall issue_pattern message_body →
  Re.search (issue_in_url_pattern issue) message_body = false →
  issue ∈ fromkeys (issue_matches cfg message_body).
Proof.
  intros Hfound Hout. unfold fromkeys. apply elem_of_fromkeys_from.
  split; [|apply not_elem_of_nil].
  unfold issue_matches. destruct (_ && _); [|done].
  by apply remove_url_issues_keeps.
Qed.

End Extractor.

(** C1: with [respond_to_urls] off, the loop that removes the issues found
    in URLs deletes from the list it is iterating over, so the item after a
    removed one is never examined.  In the example of the specification
    FOO-1 goes and BAR-2 stays; but where two URLs follow one another, the
    second issue, BAR-2, is a match of the pattern, sits at the end of a
    URL, and is still among the keys looked up.  Likewise a key mentioned
    twice, once in a URL, loses one occurrence and stays. *)
Theorem url_removal_skips_next_issue :
  let cfg := Sample.config 60 5 false false in
  unique_issues cfg "see https://x/FOO-1 and BAR-2" = ["BAR-2"] ∧
  let text := "https://x/FOO-1 https://x/BAR-2" in
  Re.findall issue_pattern text = ["FOO-1"; "BAR-2"] ∧
  Re.search url_pattern text = true ∧
  Re.search (issue_in_url_pattern "FOO-1") text = true ∧
  Re.search (issue_in_url_pattern "BAR-2") text = true ∧
  remove_url_issues text 2 0 ["FOO-1"; "BAR-2"] = ["BAR-2"] ∧
  issue_matches cfg text = ["BAR-2"] ∧
  unique_issues cfg text = ["BAR-2"] ∧
  unique_issues cfg "FOO-1 https://x/FOO-1" = ["FOO-1"].
Proof. vm_compute. repeat split. Qed.

(** C3: the keys are distinct and at most the maximum (see
    [unique_issues_NoDup] and [unique_issues_length]), but the order of
    first occurrence is lost when the URL check removes the first
    occurrences of a key and leaves a later one: FOO-1 comes first in the
    text and last in the keys. *)
Theorem first_occurrence_order_lost :
  let cfg := Sample.config 60 5 false false in
  let text := "FOO-1 FOO-1 BAR-2 https://x/FOO-1" in
  Re.findall issue_pattern text = ["FOO-1"; "FOO-1"; "BAR-2"; "FOO-1"] ∧
  fromkeys (Re.findall issue_pattern text) = ["FOO-1"; "BAR-2"] ∧
  issue_matches cfg text = ["BAR-2"; "FOO-1"] ∧
  unique_issues cfg text = ["BAR-2"; "FOO-1"].
Proof. vm_compute. repeat split. Qed.

(** ** Text *)

Lemma sapp_cons (c : ascii) (a b : string) : String c a +:+ b = String c (a +:+ b).
Proof. reflexivity. Qed.

Lemma sapp_nil_r (a : string) : a +:+ "" = a.
Proof. induction a as [|c a IH]; [done|]. by rewrite sapp_cons, IH. Qed.

Lemma sapp_assoc (a b c : string) : (a +:+ b) +:+ c = a +:+ b +:+ c.
Proof. induction a as [|x a IH]; [done|]. by rewrite !sapp_cons, IH. Qed.

Lemma slength_app (a b : string) :
  String.length (a +:+ b) = (String.length a + String.length b)%nat.
Proof. induction a as [|x a IH]; [done|]. rewrite sapp_cons. cbn. by rewrite IH. Qed.

Lemma prev_after_app (prev : option ascii) (a b : string) :
  prev_after prev (a +:+ b) = prev_after (prev_after prev a) b.
Proof.
  revert prev. induction a as [|x a IH]; intros prev; [done|].
  rewrite sapp_cons. cbn. apply IH.
Qed.

Lemma prefix_app (m rest : string) : Str.prefix (String.length m) (m +:+ rest) = m.
Proof.
  induction m as [|x m IH]; [by destruct rest|].
  rewrite sapp_cons. cbn. by rewrite IH.
Qed.

Lemma all_chars_app (p : ascii → bool) (a b : string) :
  all_chars p (a +:+ b) = all_chars p a && all_chars p b.
Proof.
  induction a as [|x a IH]; [done|]. rewrite sapp_cons. cbn.
  by rewrite IH, andb_assoc.
Qed.

(** ** The matcher finds the matches *)

Lemma lit_sound (p : string) (prev : option ascii) (s : string) (k : Re.cont)
    (x : string) :
  Re.lit p prev s k = Some x →
  ∃ rest, s = p +:+ rest ∧ k (prev_after prev p) rest = Some x.
Proof.
  revert prev s. induction p as [|a p IH]; intros prev s; cbn [Re.lit].
  - intros H. by exists s.
  - destruct s as [|b s]; [done|]. destruct (decide (a = b)) as [<-|]; [|done].
    intros H. destruct (IH _ _ H) as (rest & -> & Hk). by exists rest.
Qed.

Lemma lit_complete (p : string) (prev : option ascii) (rest : string) (k : Re.cont) :
  Re.lit p prev (p +:+ rest) k = k (prev_after prev p) rest.
Proof.
  revert prev. induction p as [|a p IH]; intros prev; [done|].
  rewrite sapp_cons. cbn [Re.lit prev_after]. by rewrite decide_True.
Qed.

Lemma repeat_sound (r : Re.regex) :
  (∀ prev s (k : Re.cont) x,
     Re.run r prev s k = Some x →
     ∃ m rest, s = m +:+ rest ∧ matches r prev m rest ∧ k (prev_after prev m) rest = Some x) →
  ∀ fuel prev s (k : Re.cont) x,
    Re.repeat (Re.run r) fuel prev s k = Some x →
    ∃ m rest, s = m +:+ rest ∧ matches (Re.Star r) prev m rest
              ∧ k (prev_after prev m) rest = Some x.
Proof.
  intros Hr. induction fuel as [|fuel IH]; intros prev s k x; cbn [Re.repeat].
  - intros H. exists "", s. split; [done|]. split; [constructor|done].
  - destruct (Re.run r prev s _) as [y|] eqn:Hrun.
    + intros [= ->]. apply Hr in Hrun as (m1 & s1 & -> & Hm1 & Hk). cbn beta in Hk.
      destruct (_ <? _)%nat; [|done].
      apply IH in Hk as (m2 & rest & -> & Hm2 & Hk).
      exists (m1 +:+ m2), rest. rewrite sapp_assoc, prev_after_app.
      split; [done|]. split; [by constructor|done].
    + intros H. exists "", s. split; [done|]. split; [constructor|done].
Qed.

(** A success of the matcher is a match, and the continuation succeeded on
    what follows it. *)
Lemma run_sound (r : Re.regex) (prev : option ascii) (s : string) (k : Re.cont)
    (x : string) :
  Re.run r prev s k = Some x →
  ∃ m rest, s = m +:+ rest ∧ matches r prev m rest ∧ k (prev_after prev m) rest = Some x.
Proof.
  revert prev s k x.
  induction r as [p|p| |r IH|r IH|r IH|r1 IH1 r2 IH2]; intros prev s k x; cbn [Re.run].
  - intros H. apply lit_sound in H as (rest & -> & Hk).
    exists p, rest. split; [done|]. split; [constructor|done].
  - destruct s as [|c s]; [done|]. destruct (p c) eqn:Hc; [|done].
    intros H. exists (String c ""), s. split; [done|]. split; [by constructor|done].
  - destruct (Re.at_boundary prev s) eqn:Hb; [|done].
    intros H. exists "", s. split; [done|]. split; [by constructor|done].
  - destruct (Re.run r prev s k) as [y|] eqn:Hrun.
    + intros [= ->]. apply IH in Hrun as (m & rest & -> & Hm & Hk).
      exists m, rest. split; [done|]. split; [by constructor|done].
    + intros H. exists "", s. split; [done|]. split; [constructor|done].
  - by apply repeat_sound.
  - intros H. apply IH in H as (m1 & s1 & -> & Hm1 & Hk). cbn beta in Hk.
    apply (repeat_sound r IH) in Hk as (m2 & rest & -> & Hm2 & Hk).
    exists (m1 +:+ m2), rest. rewrite sapp_assoc, prev_after_app.
    split; [done|]. split; [by constructor|done].
  - intros H. apply IH1 in H as (m1 & s1 & -> & Hm1 & Hk). cbn beta in Hk.
    apply IH2 in Hk as (m2 & rest & -> & Hm2 & Hk).
    exists (m1 +:+ m2), rest. rewrite sapp_assoc, prev_after_app.
    split; [done|]. split; [by constructor|done].
Qed.

Lemma repeat_nil_complete (step : option ascii → string → Re.cont → option string)
    (fuel : nat) (prev : option ascii) (s : string) (k : Re.cont) (x : string) :
  k prev s = Some x → ∃ y, Re.repeat step fuel prev s k = Some y.
Proof.
  intros Hk. destruct fuel as [|fuel]; cbn [Re.repeat]; [by exists x|].
  destruct (step prev s _) as [y|]; [by exists y|by exists x].
Qed.

(** Where there is a match after which the continuation succeeds, the
    matcher succeeds. *)
Lemma run_complete (r : Re.regex) (prev : option ascii) (m rest : string) :
  matches r prev m rest →
  ∀ (k : Re.cont) x, k (prev_after prev m) rest = Some x →
  ∃ y, Re.run r prev (m +:+ rest) k = Some y.
Proof.
  induction 1 as [p prev rest|p c prev rest Hc|prev rest Hb|r prev rest
                 |r prev m rest Hm IH|r prev rest
                 |r prev m1 m2 rest Hm1 IH1 Hm2 IH2
                 |r prev m1 m2 rest Hm1 IH1 Hm2 IH2
                 |r1 r2 prev m1 m2 rest Hm1 IH1 Hm2 IH2];
    intros k x Hk; cbn [Re.run].
  - rewrite lit_complete. by exists x.
  - rewrite sapp_cons. change ("" +:+ rest) with rest. rewrite Hc. by exists x.
  - change ("" +:+ rest) with rest. rewrite Hb. by exists x.
  - change ("" +:+ rest) with rest.
    destruct (Re.run r prev rest k) as [y|]; [by exists y|by exists x].
  - destruct (IH k x Hk) as [y ->]. by exists y.
  - change ("" +:+ rest) with rest. by apply repeat_nil_complete with x.
  - rewrite prev_after_app in Hk. destruct (IH2 k x Hk) as [y Hy]. cbn [Re.run] in Hy.
    destruct m1 as [|c m1]; [exact (ex_intro _ y Hy)|].
    rewrite sapp_assoc, sapp_cons. cbn [String.length Re.repeat].
    rewrite <- sapp_cons.
    match goal with
    | |- context [Re.run r prev _ ?K] => destruct (IH1 K y) as [z Hz]
    end.
    { cbn beta.
      assert (Hlt : (String.length (m2 +:+ rest)
                     <? S (String.length (m1 +:+ m2 +:+ rest)))%nat = true).
      { apply Nat.ltb_lt. rewrite (slength_app m1). lia. }
      rewrite Hlt. rewrite <- Hy. apply repeat_fuel.
      - intros prev' s' k1 k2 H. by apply run_ext.
      - apply run_fails.
      - rewrite (slength_app m1). lia.
      - done. }
    rewrite Hz. by exists z.
  - rewrite prev_after_app in Hk. destruct (IH2 k x Hk) as [y Hy]. cbn [Re.run] in Hy.
    rewrite sapp_assoc. apply (IH1 _ y). exact Hy.
  - rewrite prev_after_app in Hk. destruct (IH2 k x Hk) as [y Hy].
    rewrite sapp_assoc. apply (IH1 _ y). exact Hy.
Qed.

Lemma search_from_eq (r : Re.regex) (prev : option ascii) (s : string) :
  Re.search_from r prev s =
    match Re.match_here r prev s with
    | Some _ => true
    | None =>
        match s with
        | String c s' => Re.search_from r (Some c) s'
        | EmptyString => false
        end
    end.
Proof. by destruct s. Qed.

(** [re.search] succeeds exactly where the text has a match. *)
Lemma search_from_spec (r : Re.regex) (prev : option ascii) (s : string) :
  Re.search_from r prev s = true ↔
  ∃ a m b, s = a +:+ m +:+ b ∧ matches r (prev_after prev a) m b.
Proof.
  split.
  - revert prev. induction s as [|c s IH]; intros prev; rewrite search_from_eq;
      destruct (Re.match_here r prev _) as [x|] eqn:Hhere.
    + intros _. apply run_sound in Hhere as (m & rest & Hs & Hm & _).
      by exists "", m, rest.
    + done.
    + intros _. apply run_sound in Hhere as (m & rest & Hs & Hm & _).
      by exists "", m, rest.
    + intros H. apply IH in H as (a & m & b & -> & Hm).
      by exists (String c a), m, b.
  - intros (a & m & b & -> & Hm). revert prev Hm.
    induction a as [|c a IH]; intros prev Hm; rewrite search_from_eq.
    + destruct (run_complete r prev m b Hm (fun _ rest => Some rest) b eq_refl)
        as [y Hy].
      unfold Re.match_here. change ("" +:+ m +:+ b) with (m +:+ b). by rewrite Hy.
    + destruct (Re.match_here r prev _); [done|]. rewrite sapp_cons. by apply IH.
Qed.

Lemma search_spec (r : Re.regex) (s : string) :
  Re.search r s = true ↔
  ∃ a m b, s = a +:+ m +:+ b ∧ matches r (prev_after None a) m b.
Proof. apply search_from_spec. Qed.

(** Every item of [re.findall] is a match in the text. *)
Lemma findall_from_matches (r : Re.regex) (prev : option ascii) (s : string)
    (skip : nat) (x : string) :
  x ∈ Re.findall_from r prev s skip →
  ∃ a b, s = a +:+ x +:+ b ∧ matches r (prev_after prev a) x b.
Proof.
  revert prev skip. induction s as [|c s IH]; intros prev skip; cbn [Re.findall_from].
  - destruct skip; [|by intros ?%elem_of_nil].
    destruct (Re.match_here r prev "") as [rest|] eqn:Hhere; [|by intros ?%elem_of_nil].
    intros ->%list_elem_of_singleton.
    apply run_sound in Hhere as (m & rest' & Hs & Hm & _).
    destruct m; [|done]. change ("" +:+ rest') with rest' in Hs. subst rest'.
    by exists "", "".
  - destruct skip as [|skip].
    + destruct (Re.match_here r prev (String c s)) as [rest|] eqn:Hhere.
      * intros [->|Hx]%elem_of_cons.
        -- apply run_sound in Hhere as (m & rest' & Hs & Hm & [= ->]).
           rewrite Hs, slength_app, Nat.add_sub, prefix_app.
           by exists "", rest.
        -- apply IH in Hx as (a & b & -> & Hm). by exists (String c a), b.
      * intros Hx. apply IH in Hx as (a & b & -> & Hm). by exists (String c a), b.
    + intros Hx. apply IH in Hx as (a & b & -> & Hm). by exists (String c a), b.
Qed.

Lemma findall_matches (r : Re.regex) (s x : string) :
  x ∈ Re.findall r s →
  ∃ a b, s = a +:+ x +:+ b ∧ matches r (prev_after None a) x b.
Proof. apply findall_from_matches. Qed.

(** ** What the plugin's patterns match *)

Lemma matches_lit_inv (p : string) (prev : option ascii) (m rest : string) :
  matches (Re.Lit p) prev m rest → m = p.
Proof. by inversion 1. Qed.

Lemma matches_class_star (p : ascii → bool) (prev : option ascii) (m rest : string) :
  matches (Re.Star (Re.Class p)) prev m rest ↔ all_chars p m = true.
Proof.
  split.
  - intros H. remember (Re.Star (Re.Class p)) as r eqn:Hr.
    induction H as [| | | | | |r' prev m1 m2 rest Hm1 _ Hm2 IH2| |]; try done.
    injection Hr as ->. inversion Hm1 as [|? c ? ? Hc| | | | | | |]; subst.
    rewrite sapp_cons. cbn. rewrite Hc. by apply IH2.
  - revert prev. induction m as [|c m IH]; intros prev; [constructor|].
    cbn. intros [Hc Hm]%andb_true_iff.
    change (String c m) with (String c "" +:+ m).
    constructor; [by constructor|by apply IH].
Qed.

Lemma matches_class_plus (p : ascii → bool) (prev : option ascii) (m rest : string) :
  matches (Re.Plus (Re.Class p)) prev m rest ↔ m ≠ "" ∧ all_chars p m = true.
Proof.
  split.
  - inversion 1 as [| | | | | | |? ? m1 m2 ? Hm1 Hm2|]; subst.
    inversion Hm1 as [|? c ? ? Hc| | | | | | |]; subst.
    apply matches_class_star in Hm2. rewrite sapp_cons. cbn. by rewrite Hc.
  - destruct m as [|c m]; intros [? H]; [done|]. cbn in H.
    apply andb_true_iff in H as [Hc Hm].
    change (String c m) with (String c "" +:+ m).
    constructor; [by constructor|by apply matches_class_star].
Qed.

Lemma upper_is_word (c : ascii) : Char.is_upper_AZ c = true → Char.is_word c = true.
Proof. destruct c as [[] [] [] [] [] [] [] []]; vm_compute; done. Qed.

Lemma digit_is_word (c : ascii) : Char.is_digit c = true → Char.is_word c = true.
Proof. destruct c as [[] [] [] [] [] [] [] []]; vm_compute; done. Qed.

Lemma prev_after_nonempty (prev : option ascii) (m : string) :
  m ≠ "" → ∃ c, prev_after prev m = Some c ∧ ∃ m', m = m' +:+ String c "".
Proof.
  revert prev. induction m as [|x m IH]; intros prev Hm; [done|].
  destruct m as [|y m].
  - exists x. split; [done|]. by exists "".
  - destruct (IH (Some x) ltac:(done)) as (c & Hc & m' & Hm').
    exists c. split; [exact Hc|]. exists (String x m'). by rewrite sapp_cons, <- Hm'.
Qed.

Lemma all_chars_last (p : ascii → bool) (prev : option ascii) (m : string) (c : ascii) :
  m ≠ "" → all_chars p m = true → prev_after prev m = Some c → p c = true.
Proof.
  intros Hm Hall Hc. destruct (prev_after_nonempty prev m Hm) as (c' & Hc' & m' & ->).
  rewrite Hc in Hc'. injection Hc' as <-.
  rewrite all_chars_app in Hall. apply andb_true_iff in Hall as [_ H].
  cbn in H. by rewrite andb_true_r in H.
Qed.

(** A match of the issue pattern: capital letters, a hyphen, digits, with no
    word character right before or right after. *)
Lemma matches_issue_pattern (prev : option ascii) (m rest : string) :
  matches issue_pattern prev m rest ↔
  ∃ letters digits,
    m = letters +:+ "-" +:+ digits ∧
    letters ≠ "" ∧ all_chars Char.is_upper_AZ letters = true ∧
    digits ≠ "" ∧ all_chars Char.is_digit digits = true ∧
    Re.word_at prev = false ∧ Re.word_at (Re.next_char rest) = false.
Proof.
  unfold issue_pattern. split.
  - inversion 1 as [| | | | | | | |? ? ? m0 m1 ? H0 H1]; subst.
    inversion H0 as [| |? ? Hb0| | | | | |]; subst. cbn [prev_after] in H1.
    inversion H1 as [| | | | | | | |? ? ? letters m2 ? Hl H2]; subst.
    apply matches_class_plus in Hl as [Hl1 Hl2].
    inversion H2 as [| | | | | | | |? ? ? h m3 ? Hh H3]; subst.
    apply matches_lit_inv in Hh as ->.
    inversion H3 as [| | | | | | | |? ? ? digits m4 ? Hd H4]; subst.
    apply matches_class_plus in Hd as [Hd1 Hd2].
    inversion H4 as [| |? ? Hb1| | | | | |]; subst.
    exists letters, digits. rewrite sapp_nil_r.
    split; [done|]. repeat split; try done.
    + destruct letters as [|c letters]; [done|]. cbn in Hl2.
      apply andb_true_iff in Hl2 as [Hc _]. apply upper_is_word in Hc.
      unfold Re.at_boundary in Hb0. rewrite !sapp_cons in Hb0. cbn in Hb0.
      rewrite Hc in Hb0. by destruct (Re.word_at prev).
    + destruct (prev_after_nonempty (prev_after (prev_after prev letters) "-") digits Hd1)
        as (c & Hc & _).
      pose proof (all_chars_last _ _ _ _ Hd1 Hd2 Hc) as Hw%digit_is_word.
      unfold Re.at_boundary in Hb1. rewrite Hc in Hb1. cbn in Hb1.
      rewrite Hw in Hb1. by destruct (Re.word_at (Re.next_char rest)).
  - intros (letters & digits & -> & Hl1 & Hl2 & Hd1 & Hd2 & Hp & Hn).
    change (letters +:+ "-" +:+ digits) with ("" +:+ letters +:+ "-" +:+ digits).
    constructor.
    + constructor. destruct letters as [|c letters]; [done|]. cbn in Hl2.
      apply andb_true_iff in Hl2 as [Hc _]. apply upper_is_word in Hc.
      unfold Re.at_boundary. rewrite !sapp_cons. cbn. by rewrite Hc, Hp.
    + cbn [prev_after]. constructor; [by apply matches_class_plus|].
      constructor; [constructor|].
      rewrite <- (sapp_nil_r digits) at 1.
      constructor; [by apply matches_class_plus|].
      constructor.
      destruct (prev_after_nonempty (prev_after (prev_after prev letters) "-") digits Hd1)
        as (c & Hc & _).
      pose proof (all_chars_last _ _ _ _ Hd1 Hd2 Hc) as Hw%digit_is_word.
      unfold Re.at_boundary. rewrite Hc. cbn. by rewrite Hw, Hn.
Qed.

Lemma matches_opt_lit (p : string) (prev : option ascii) (m rest : string) :
  matches (Re.Opt (Re.Lit p)) prev m rest ↔ m = "" ∨ m = p.
Proof.
  split.
  - inversion 1 as [| | |? ? ?|? ? ? ? Hm| | | |]; subst; [by left|].
    right. by apply matches_lit_inv in Hm.
  - intros [->| ->]; [constructor|]. constructor. constructor.
Qed.

(** A match of the URL pattern: the scheme and what follows it up to, at
    most, the next white space. *)
Lemma matches_url_pattern (prev : option ascii) (m rest : string) :
  matches url_pattern prev m rest ↔
  ∃ tail, (m = "http://" +:+ tail ∨ m = "https://" +:+ tail) ∧
          all_chars not_space tail = true.
Proof.
  unfold url_pattern. split.
  - inversion 1 as [| | | | | | | |? ? ? m0 m1 ? H0 H1]; subst.
    apply matches_lit_inv in H0 as ->.
    inversion H1 as [| | | | | | | |? ? ? m2 m3 ? H2 H3]; subst.
    apply matches_opt_lit in H2.
    inversion H3 as [| | | | | | | |? ? ? m4 tail ? H4 H5]; subst.
    apply matches_lit_inv in H4 as ->.
    apply matches_class_star in H5.
    exists tail. split; [|done]. destruct H2 as [->| ->]; [by left|by right].
  - intros (tail & Hm & Htail).
    assert (Hgen : ∀ s, s = "" ∨ s = "s" →
              matches
                (Re.Cat (Re.Lit "http")
                   (Re.Cat (Re.Opt (Re.Lit "s"))
                      (Re.Cat (Re.Lit "://") (Re.Star (Re.Class not_space)))))
                prev ("http" +:+ s +:+ "://" +:+ tail) rest).
    { intros s Hs. constructor; [constructor|].
      constructor; [by apply matches_opt_lit|].
      constructor; [constructor|]. by apply matches_class_star. }
    destruct Hm as [->| ->]; [apply (Hgen ""); by left|apply (Hgen "s"); by right].
Qed.

(** A match of the pattern that looks for an issue in a URL: the scheme,
    then characters that are not white space, then the issue, then a word
    boundary. *)
Lemma matches_issue_in_url_pattern (issue : string) (prev : option ascii)
    (m rest : string) :
  matches (issue_in_url_pattern issue) prev m rest ↔
  ∃ tail, (m = "http://" +:+ tail +:+ issue ∨ m = "https://" +:+ tail +:+ issue) ∧
          all_chars not_space tail = true ∧
          Re.at_boundary (prev_after prev m) rest = true.
Proof.
  unfold issue_in_url_pattern. split.
  - inversion 1 as [| | | | | | | |? ? ? m0 m1 ? H0 H1]; subst.
    apply matches_lit_inv in H0 as ->.
    inversion H1 as [| | | | | | | |? ? ? m2 m3 ? H2 H3]; subst.
    apply matches_opt_lit in H2.
    inversion H3 as [| | | | | | | |? ? ? m4 m5 ? H4 H5]; subst.
    apply matches_lit_inv in H4 as ->.
    inversion H5 as [| | | | | | | |? ? ? tail m6 ? H6 H7]; subst.
    apply matches_class_star in H6.
    inversion H7 as [| | | | | | | |? ? ? m7 m8 ? H8 H9]; subst.
    apply matches_lit_inv in H8 as ->.
    inversion H9 as [| |? ? Hb| | | | | |]; subst.
    exists tail. rewrite sapp_nil_r.
    split; [destruct H2 as [->| ->]; [by left|by right]|]. split; [done|].
    by rewrite !prev_after_app.
  - intros (tail & Hm & Htail & Hb).
    assert (Hgen : ∀ s, s = "" ∨ s = "s" →
              Re.at_boundary (prev_after prev ("http" +:+ s +:+ "://" +:+ tail +:+ issue))
                rest = true →
              matches
                (Re.Cat (Re.Lit "http")
                   (Re.Cat (Re.Opt (Re.Lit "s"))
                      (Re.Cat (Re.Lit "://")
                         (Re.Cat (Re.Star (Re.Class not_space))
                            (Re.Cat (Re.Lit issue) Re.Bound)))))
                prev ("http" +:+ s +:+ "://" +:+ tail +:+ issue +:+ "") rest).
    { intros s Hs Hb'. constructor; [constructor|].
      constructor; [by apply matches_opt_lit|].
      constructor; [constructor|].
      constructor; [by apply matches_class_star|].
      constructor; [constructor|]. constructor.
      by rewrite !prev_after_app in Hb'. }
    destruct Hm as [->| ->].
    + specialize (Hgen "" (or_introl eq_refl) Hb). by rewrite sapp_nil_r in Hgen.
    + specialize (Hgen "s" (or_intror eq_refl) Hb). by rewrite sapp_nil_r in Hgen.
Qed.

(** [re.search(r"https?://\S*", s)] finds something exactly when the text
    holds one of the two schemes. *)
Lemma search_url_pattern (s : string) :
  Re.search url_pattern s = true ↔
  ∃ a b, s = a +:+ "http://" +:+ b ∨ s = a +:+ "https://" +:+ b.
Proof.
  rewrite search_spec. split.
  - intros (a & m & b & -> & Hm).
    apply matches_url_pattern in Hm as (tail & [->| ->] & _).
    + exists a, (tail +:+ b). left. by rewrite !sapp_assoc.
    + exists a, (tail +:+ b). right. by rewrite !sapp_assoc.
  - intros (a & b & [->| ->]).
    + exists a, "http://", b. split; [done|].
      apply matches_url_pattern. exists "". by split; [left|].
    + exists a, "https://", b. split; [done|].
      apply matches_url_pattern. exists "". by split; [right|].
Qed.

Lemma search_issue_in_url_pattern (issue s : string) :
  Re.search (issue_in_url_pattern issue) s = true ↔
  ∃ a scheme tail b,
    s = a +:+ scheme +:+ tail +:+ issue +:+ b ∧
    (scheme = "http://" ∨ scheme = "https://") ∧
    all_chars not_space tail = true ∧
    Re.at_boundary (prev_after None (a +:+ scheme +:+ tail +:+ issue)) b = true.
Proof.
  rewrite search_spec. split.
  - intros (a & m & b & -> & Hm).
    apply matches_issue_in_url_pattern in Hm as (tail & Hm & Htail & Hb).
    destruct Hm as [->| ->].
    + exists a, "http://", tail, b. rewrite !sapp_assoc.
      split; [done|]. split; [by left|]. split; [done|].
      by rewrite prev_after_app.
    + exists a, "https://", tail, b. rewrite !sapp_assoc.
      split; [done|]. split; [by right|]. split; [done|].
      by rewrite prev_after_app.
  - intros (a & scheme & tail & b & -> & Hscheme & Htail & Hb).
    exists a, (scheme +:+ tail +:+ issue), b. rewrite !sapp_assoc.
    split; [done|]. apply matches_issue_in_url_pattern. exists tail.
    rewrite prev_after_app in Hb.
    split; [destruct Hscheme as [->| ->]; [by left|by right]|]. by split.
Qed.

(** Where the text holds no scheme, no issue is found in a URL: the check
    of line 89 only saves the loop. *)
Lemma no_url_no_issue_in_url (issue s : string) :
  Re.search url_pattern s = false →
  Re.search (issue_in_url_pattern issue) s = false.
Proof.
  intros Hnone. apply not_true_is_false. intros Hin. apply not_true_iff_false in Hnone.
  apply Hnone. apply search_url_pattern.
  apply search_issue_in_url_pattern in Hin
    as (a & scheme & tail & b & -> & [->| ->] & _).
  - exists a, (tail +:+ issue +:+ b). by left.
  - exists a, (tail +:+ issue +:+ b). by right.
Qed.

Lemma remove_url_issues_nothing (s : string) (fuel i : nat) (l : list string) :
  (∀ issue, issue ∈ l → Re.search (issue_in_url_pattern issue) s = false) →
  remove_url_issues s fuel i l = l.
Proof.
  intros Hnone. revert i. induction fuel as [|fuel IH]; intros i; cbn; [done|].
  destruct (l !! i) as [issue|] eqn:Hi; [|done].
  rewrite Hnone by (by eapply list_elem_of_lookup_2). apply IH.
Qed.


(** ** More on the extractor *)

Lemma split_head_letters (letters rest : string) :
  all_chars Char.is_upper_AZ letters = true →
  Str.split_head "-" (letters +:+ "-" +:+ rest) = letters.
Proof.
  induction letters as [|c letters IH]; intros Hall.
  - change ("" +:+ "-" +:+ rest) with (String "-" rest). cbn [Str.split_head].
    by rewrite decide_True.
  - cbn in Hall. apply andb_true_iff in Hall as [Hc Hall].
    rewrite sapp_cons. cbn [Str.split_head].
    destruct (decide (c = "-"%char)) as [->|]; [done|]. by rewrite IH.
Qed.

(** X1: every match [re.findall] returns for the issue pattern stands in the
    text as a whole word and is made of capital letters A to Z, a hyphen and
    decimal digits, at least one of each. *)
Theorem found_issues_are_whole_words (text issue : string) :
  issue ∈ Re.findall issue_pattern text →
  ∃ before after_it letters digits,
    text = before +:+ issue +:+ after_it ∧
    issue = letters +:+ "-" +:+ digits ∧
    letters ≠ "" ∧ all_chars Char.is_upper_AZ letters = true ∧
    digits ≠ "" ∧ all_chars Char.is_digit digits = true ∧
    Re.word_at (prev_after None before) = false ∧
    Re.word_at (Re.next_char after_it) = false.
Proof.
  intros Hin. apply findall_matches in Hin as (a & b & Htext & Hm).
  apply matches_issue_pattern in Hm
    as (letters & digits & Hissue & Hl1 & Hl2 & Hd1 & Hd2 & Hp & Hn).
  by exists a, b, letters, digits.
Qed.

(** X2: the project key the loop computes for a key it visits is the key's
    letters: it is never empty and holds nothing but capital letters A to
    Z. *)
Theorem project_key_is_capital_letters (cfg : Config) (text issue_key : string) :
  issue_key ∈ unique_issues cfg text →
  Str.split_head "-" issue_key ≠ "" ∧
  all_chars Char.is_upper_AZ (Str.split_head "-" issue_key) = true ∧
  ∃ digits, issue_key = Str.split_head "-" issue_key +:+ "-" +:+ digits ∧
            digits ≠ "" ∧ all_chars Char.is_digit digits = true.
Proof.
  intros Hin. pose proof (elem_of_sublist _ _ _ Hin (unique_issues_sublist cfg text)) as H.
  apply findall_matches in H as (a & b & _ & Hm).
  apply matches_issue_pattern in Hm
    as (letters & digits & -> & Hl1 & Hl2 & Hd1 & Hd2 & _).
  rewrite split_head_letters by done. split; [done|]. split; [done|].
  by exists digits.
Qed.

Lemma issue_matches_without_check (cfg : Config) (message_body : string) :
  issue_matches cfg message_body =
    if respond_to_urls cfg then Re.findall issue_pattern message_body
    else remove_url_issues message_body
           (length (Re.findall issue_pattern message_body)) 0
           (Re.findall issue_pattern message_body).
Proof.
  unfold issue_matches. destruct (respond_to_urls cfg); [done|].
  cbn [negb andb]. destruct (Re.search url_pattern message_body) eqn:Hurl; [done|].
  symmetry. apply remove_url_issues_nothing.
  intros issue _. by apply no_url_no_issue_in_url.
Qed.

(** X3: the search of line 89 decides nothing: whether or not it is made,
    the candidates left are the matches when URLs are answered, and what
    the removal loop leaves of them when they are not. *)
Theorem url_check_only_saves_the_loop (cfg : Config) (message_body : string) :
  issue_matches cfg message_body =
    let found := Re.findall issue_pattern message_body in
    if respond_to_urls cfg then found
    else remove_url_issues message_body (length found) 0 found.
Proof. apply issue_matches_without_check. Qed.

(** X4: the candidates are looked for in URLs exactly when the text holds
    [http://] or [https://] somewhere. *)
Theorem url_search_finds_a_scheme (message_body : string) :
  Re.search url_pattern message_body = true ↔
  ∃ before after_it,
    message_body = before +:+ "http://" +:+ after_it ∨
    message_body = before +:+ "https://" +:+ after_it.
Proof. apply search_url_pattern. Qed.

Lemma prev_after_ends (prev : option ascii) (head : string) (c : ascii) :
  prev_after prev (head +:+ String c "") = Some c.
Proof. by rewrite prev_after_app. Qed.

(** X5: a key that ends in a digit counts as part of a URL exactly when the
    text holds a scheme, then characters that are not white space, then the
    key, and the key is not followed by a word character. *)
Theorem issue_in_url_means (issue head message_body : string) (d : ascii) :
  issue = head +:+ String d "" →
  Char.is_digit d = true →
  (Re.search (issue_in_url_pattern issue) message_body = true ↔
   ∃ before scheme tail after_it,
     message_body = before +:+ scheme +:+ tail +:+ issue +:+ after_it ∧
     (scheme = "http://" ∨ scheme = "https://") ∧
     all_chars not_space tail = true ∧
     Re.word_at (Re.next_char after_it) = false).
Proof.
  intros -> Hd%digit_is_word. rewrite search_issue_in_url_pattern.
  assert (Hb : ∀ a scheme tail b,
            Re.at_boundary
              (prev_after None (a +:+ scheme +:+ tail +:+ head +:+ String d "")) b = true
            ↔ Re.word_at (Re.next_char b) = false).
  { intros a scheme tail b. rewrite <- !sapp_assoc, prev_after_ends.
    unfold Re.at_boundary. cbn [Re.word_at]. rewrite Hd.
    by destruct (Re.word_at (Re.next_char b)). }
  split.
  - intros (a & scheme & tail & b & Hs & Hscheme & Htail & Hbound).
    exists a, scheme, tail, b. by rewrite <- Hb.
  - intros (a & scheme & tail & b & Hs & Hscheme & Htail & Hbound).
    exists a, scheme, tail, b. by rewrite Hb.
Qed.

Lemma issue_in_url_means_witness :
  Re.search (issue_in_url_pattern "FOO-1") "see https://x/FOO-1, and BAR-2" = true ∧
  ∃ before scheme tail after_it,
    "see https://x/FOO-1, and BAR-2" = before +:+ scheme +:+ tail +:+ "FOO-1" +:+ after_it ∧
    (scheme = "http://" ∨ scheme = "https://") ∧
    all_chars not_space tail = true ∧
    Re.word_at (Re.next_char after_it) = false.
Proof.
  split; [vm_compute; reflexivity|].
  apply (issue_in_url_means "FOO-1" "FOO-" "see https://x/FOO-1, and BAR-2" "1");
    vm_compute; reflexivity.
Defined.

(** X6: a match that no URL of the text ends in survives the URL check, and
    it is looked up unless the cut at the maximum takes it away. *)
Theorem issue_outside_urls_is_kept (cfg : Config) (message_body issue : string) :
  issue ∈ Re.findall issue_pattern message_body →
  Re.search (issue_in_url_pattern issue) message_body = false →
  issue ∈ issue_matches cfg message_body ∧
  (Z.of_nat (length (fromkeys (issue_matches cfg message_body)))
     <= max_issues_per_message cfg →
   issue ∈ unique_issues cfg message_body).
Proof.
  intros Hfound Hout.
  assert (Hleft : issue ∈ issue_matches cfg message_body).
  { unfold issue_matches. destruct (_ && _); [|done].
    by apply remove_url_issues_keeps. }
  split; [exact Hleft|]. intros Hfew. unfold unique_issues.
  rewrite decide_False by lia. unfold fromkeys. apply elem_of_fromkeys_from.
  split; [exact Hleft|apply not_elem_of_nil].
Qed.

Lemma issue_outside_urls_is_kept_witness :
  "BAR-2" ∈ unique_issues (Sample.config 60 5 false false) "see https://x/FOO-1 and BAR-2".
Proof.
  apply (issue_outside_urls_is_kept (Sample.config 60 5 false false)
           "see https://x/FOO-1 and BAR-2" "BAR-2").
  - vm_compute. apply list_elem_of_further, list_elem_of_here.
  - vm_compute. reflexivity.
  - vm_compute. discriminate.
Defined.

Lemma list_remove_at (l : list string) (i : nat) (x : string) :
  NoDup l → l !! i = Some x → list_remove x l = take i l ++ drop (S i) l.
Proof.
  intros Hdup. revert i. induction Hdup as [|y l Hy Hdup IH]; intros i; [done|].
  destruct i as [|i]; cbn.
  - intros [= ->]. by rewrite decide_True.
  - intros Hi. rewrite decide_False.
    + by rewrite (IH i Hi).
    + intros ->. apply Hy. by eapply list_elem_of_lookup_2.
Qed.

Lemma remove_url_issues_from (message_body : string) (fuel i : nat) (l : list string) :
  NoDup l → (length l - i ≤ fuel)%nat →
  remove_url_issues message_body fuel i l =
    take i l ++
      passed_over (fun x => Re.search (issue_in_url_pattern x) message_body) (drop i l).
Proof.
  revert i l. induction fuel as [|fuel IH]; intros i l Hdup Hfuel.
  - cbn. rewrite take_ge, drop_ge by lia. by rewrite app_nil_r.
  - cbn [remove_url_issues]. destruct (l !! i) as [issue|] eqn:Hi.
    + rewrite (drop_S _ _ _ Hi). cbn [passed_over].
      pose proof (lookup_lt_Some _ _ _ Hi) as Hlt.
      destruct (Re.search (issue_in_url_pattern issue) message_body).
      * rewrite (list_remove_at l i issue Hdup Hi).
        assert (Hdup' : NoDup (take i l ++ drop (S i) l)).
        { rewrite <- (take_drop_middle l i issue Hi) in Hdup.
          apply NoDup_app in Hdup as (H1 & H2 & H3%NoDup_cons).
          apply NoDup_app. split; [done|]. split; [|by destruct H3].
          intros x Hx Hx'. apply (H2 x Hx). by right. }
        assert (Hlen : length (take i l) = i) by (rewrite length_take; lia).
        rewrite IH; [|done|rewrite length_app, Hlen, length_drop; lia].
        destruct (drop (S i) l) as [|y rest] eqn:Hrest.
        -- rewrite app_nil_r, take_ge, drop_ge by lia. by rewrite app_nil_r.
        -- replace (S i) with (i + 1)%nat by lia.
           rewrite take_app_add', drop_app_add' by done.
           change (take 1 (y :: rest)) with [y]. change (drop 1 (y :: rest)) with rest.
           by rewrite <- app_assoc.
      * rewrite IH by (done || lia). rewrite (take_S_r _ _ _ Hi).
        by rewrite <- app_assoc.
    + apply lookup_ge_None in Hi. rewrite take_ge, drop_ge by lia.
      by rewrite app_nil_r.
Qed.

(** X7: for candidates that are all distinct, the loop that removes the
    issues found in URLs drops a candidate that ends a URL and passes over
    the candidate right after it without examining it. *)
Theorem url_removal_passes_over (cfg : Config) (message_body : string) :
  respond_to_urls cfg = false →
  NoDup (Re.findall issue_pattern message_body) →
  issue_matches cfg message_body =
    passed_over (fun x => Re.search (issue_in_url_pattern x) message_body)
      (Re.findall issue_pattern message_body).
Proof.
  intros Hurls Hdup. rewrite issue_matches_without_check, Hurls.
  rewrite remove_url_issues_from by (done || lia). by rewrite take_0, drop_0.
Qed.

(** X8: no key is looked up twice for one message, and the keys are matches
    of the pattern taken in the order in which they stand in the text. *)
Theorem keys_distinct_in_text_order (cfg : Config) (message_body : string) :
  NoDup (unique_issues cfg message_body) ∧
  unique_issues cfg message_body `sublist_of` Re.findall issue_pattern message_body.
Proof. split; [apply unique_issues_NoDup|apply unique_issues_sublist]. Qed.

(** X9: when URLs are answered, or the text holds no scheme, the keys are
    the distinct matches in the order of their first occurrence, cut at the
    maximum; and reading the matches from left to right, a match not seen
    before goes to the end of the keys, one seen before changes nothing. *)
Theorem keys_in_first_occurrence_order (cfg : Config) (message_body : string) :
  (respond_to_urls cfg = true ∨ Re.search url_pattern message_body = false →
   unique_issues cfg message_body =
     let unique := fromkeys (Re.findall issue_pattern message_body) in
     if decide (Z.of_nat (length unique) > max_issues_per_message cfg)
     then slice_to (max_issues_per_message cfg) unique else unique) ∧
  fromkeys [] = [] ∧
  (∀ l x, fromkeys (l ++ [x]) = if decide (x ∈ l) then fromkeys l else fromkeys l ++ [x]).
Proof.
  split; [|split; [done|]].
  - intros Hwhy. unfold unique_issues, issue_matches.
    destruct Hwhy as [-> | ->]; [done|]. by rewrite andb_false_r.
  - intros l x. unfold fromkeys.
    assert (Hgen : ∀ seen,
              fromkeys_from seen (l ++ [x]) =
                if decide (x ∈ seen ∨ x ∈ l) then fromkeys_from seen l
                else fromkeys_from seen l ++ [x]).
    { induction l as [|y l IH]; intros seen.
      - cbn. destruct (decide (x ∈ seen)) as [Hx|Hx].
        + by rewrite decide_True by (by left).
        + rewrite decide_False; [done|]. intros [?|?%elem_of_nil]; done.
      - cbn. destruct (decide (y ∈ seen)) as [Hy|Hy]; rewrite IH.
        + destruct (decide (x ∈ seen ∨ x ∈ l)) as [H|H].
          * rewrite decide_True; [done|]. destruct H; [by left|right; by right].
          * rewrite decide_False; [done|].
            intros [?|[->|?]%elem_of_cons]; apply H; auto.
        + destruct (decide (x ∈ y :: seen ∨ x ∈ l)) as [H|H].
          * rewrite decide_True; [done|].
            destruct H as [[->|?]%elem_of_cons|?];
              [right; by left|by left|right; by right].
          * rewrite decide_False; [done|].
            intros [?|[->|?]%elem_of_cons]; apply H;
              [left; by right|left; by left|by right]. }
    rewrite Hgen. destruct (decide (x ∈ l)) as [Hx|Hx].
    + by rewrite decide_True by (by right).
    + rewrite decide_False; [done|]. intros [?%elem_of_nil|?]; done.
Qed.

Lemma keys_in_first_occurrence_order_witness :
  unique_issues (Sample.config 60 2 false true) "ABC-1 https://x/FOO-2 ABC-1 BAR-3" =
    ["ABC-1"; "FOO-2"].
Proof.
  destruct (keys_in_first_occurrence_order (Sample.config 60 2 false true)
              "ABC-1 https://x/FOO-2 ABC-1 BAR-3") as [H _].
  rewrite H by (left; reflexivity). vm_compute. reflexivity.
Defined.

(** ** More on the pipeline *)

Section Pipeline.

Context (w : World) (cfg : Config).

(** The requests of the loop are for keys it was given, in their order. *)
Lemma lookup_issues_requests (keys : list string) (p : Plugin) :
  ∃ fetched,
    fetched `sublist_of` keys ∧
    effects (lookup_issues w cfg keys p) =
      (fun k => Get (issue_url w cfg k)) <$> fetched.
Proof.
  revert p. induction keys as [|k keys IH]; intros p.
  - by exists [].
  - rewrite lookup_issues_cons. unfold effects at 1; cbn [snd].
    destruct (IH (state_after (lookup_issue w cfg k p))) as (fetched & Hsub & ->).
    rewrite lookup_issue_run. destruct (decide _).
    + destruct (checked w cfg k p !! k); unfold effects; cbn [snd].
      * exists fetched. split; [by apply sublist_cons|done].
      * unfold fetch_requests. destruct (issue_url_raises w cfg k).
        -- exists fetched. split; [by apply sublist_cons|done].
        -- exists (k :: fetched). split; [by apply sublist_skip|done].
    + exists fetched. split; [by apply sublist_cons|done].
Qed.

(** X10: what a message causes is a run of requests, each for the issue
    resource of one of the keys, in their order and none twice, followed by
    at most one reply; with a maximum that is not negative there are at
    most that many requests. *)
Theorem message_requests_then_one_reply (evt : MessageEvent) (p : Plugin) :
  ∃ fetched texts,
    effects (on_message w cfg evt p) =
      ((fun k => Get (issue_url w cfg k)) <$> fetched) ++ (Respond <$> texts) ∧
    fetched `sublist_of` unique_issues cfg (body evt) ∧
    NoDup fetched ∧
    (length texts ≤ 1)%nat ∧
    (0 <= max_issues_per_message cfg →
     Z.of_nat (length fetched) <= max_issues_per_message cfg).
Proof.
  destruct (on_message_cases w cfg evt p) as [->| ->].
  - exists [], []. split; [done|]. split; [apply sublist_nil_l|].
    split; [constructor|]. split; [cbn; lia|]. cbn. lia.
  - rewrite process_message_run. unfold effects at 1; cbn [snd].
    destruct (lookup_issues_requests (unique_issues cfg (body evt)) p)
      as (fetched & Hsub & ->).
    exists fetched,
      (match result (lookup_issues w cfg (unique_issues cfg (body evt)) p) with
       | [] => []
       | _ => [response_text (body evt)
                 (result (lookup_issues w cfg (unique_issues cfg (body evt)) p))]
       end).
    split; [by destruct (result _)|]. split; [exact Hsub|].
    split; [by eapply sublist_NoDup; [apply unique_issues_NoDup|]|].
    split; [destruct (result _); cbn; lia|].
    intros Hmax. pose proof (unique_issues_length cfg (body evt) Hmax).
    apply sublist_length in Hsub. lia.
Qed.

(** X11: with [max_issues_per_message] set to 0 no message is acted upon. *)
Theorem zero_max_silences (evt : MessageEvent) (p : Plugin) :
  max_issues_per_message cfg = 0 →
  on_message w cfg evt p = (tt, p, []).
Proof.
  intros Hmax. destruct (on_message_cases w cfg evt p) as [->| ->]; [done|].
  rewrite process_message_run.
  assert (Hnone : unique_issues cfg (body evt) = []).
  { pose proof (unique_issues_length cfg (body evt)) as H. rewrite Hmax in H.
    destruct (unique_issues cfg (body evt)); [done|]. cbn in H. lia. }
  by rewrite Hnone.
Qed.

Lemma lookup_issue_ledger (k : string) (p : Plugin) (k' : string) (ts : Z) :
  _recent_issues (state_after (lookup_issue w cfg k p)) !! k' = Some ts →
  _recent_issues p !! k' = Some ts ∨
  (k' = k ∧ Str.split_head "-" k ∈ _projects p ∧ ts = time_at w k).
Proof.
  rewrite lookup_issue_run. destruct (decide _) as [Hknown|]; [|by left].
  unfold checked. destruct (live cfg (time_at w k) (_recent_issues p) !! k);
    unfold state_after; cbn [fst snd _recent_issues].
  - intros H%lookup_live_Some. left. by destruct H.
  - destruct (decide (k = k')) as [<-|Hne].
    + rewrite lookup_insert_eq. intros [= <-]. by right.
    + rewrite lookup_insert_ne by done. intros H%lookup_live_Some.
      left. by destruct H.
Qed.

Lemma lookup_issues_ledger (keys : list string) (p : Plugin) (k' : string) (ts : Z) :
  _recent_issues (state_after (lookup_issues w cfg keys p)) !! k' = Some ts →
  _recent_issues p !! k' = Some ts ∨
  (k' ∈ keys ∧ Str.split_head "-" k' ∈ _projects p ∧ ts = time_at w k').
Proof.
  revert p. induction keys as [|k keys IH]; intros p; [by left|].
  rewrite lookup_issues_cons. unfold state_after at 1; cbn [fst snd].
  intros H. apply IH in H as [H|(Hin & Hknown & Hts)].
  - apply lookup_issue_ledger in H as [H|(-> & Hknown & Hts)]; [by left|].
    right. split; [apply list_elem_of_here|done].
  - right. rewrite lookup_issue_projects in Hknown.
    split; [by apply list_elem_of_further|done].
Qed.

(** X12: a message never touches the project list, and an entry of the
    ledger after it is an entry from before, or a key of the message whose
    project is known, recorded with the time of its check. *)
Theorem message_only_records_its_keys (evt : MessageEvent) (p : Plugin) :
  _projects (state_after (on_message w cfg evt p)) = _projects p ∧
  ∀ k ts,
    _recent_issues (state_after (on_message w cfg evt p)) !! k = Some ts →
    _recent_issues p !! k = Some ts ∨
    (k ∈ unique_issues cfg (body evt) ∧
     Str.split_head "-" k ∈ _projects p ∧
     ts = time_at w k).
Proof.
  destruct (on_message_cases w cfg evt p) as [->| ->].
  - split; [done|]. intros k ts H. by left.
  - rewrite process_message_run. unfold state_after at 1 2; cbn [fst snd].
    split; [apply lookup_issues_projects|]. intros k ts. apply lookup_issues_ledger.
Qed.

(** X13: a message that is acted upon gets a reply exactly when one of its
    issues resolves; without one nothing is sent. *)
Theorem reply_iff_resolved (evt : MessageEvent) (p : Plugin) :
  sent (effects (_process_message_for_issues w cfg evt p)) = [] ↔
  resolved_issues w cfg (unique_issues cfg (body evt)) p = [].
Proof.
  rewrite process_message_run. unfold effects at 1; cbn [snd].
  rewrite sent_app, lookup_issues_sent, lookup_issues_result. cbn [app].
  destruct (resolved_issues w cfg (unique_issues cfg (body evt)) p); cbn; done.
Qed.

(** X14: [!jira update] always answers with exactly one text, after the
    one request for the project list, or after none when the URL cannot be
    built; it never touches the ledger. *)
Theorem update_always_answers (p : Plugin) :
  (∃ text,
     effects (update_projects w cfg p) =
       (if projects_url_raises w cfg then [] else [Get (projects_url w cfg)])
       ++ [Respond text]) ∧
  _recent_issues (state_after (update_projects w cfg p)) = _recent_issues p.
Proof.
  unfold update_projects. rewrite bind_run, update_projects_run.
  destruct (projects_url_raises w cfg); [by eauto|].
  destruct (get_projects w (projects_url w cfg)) as [|status [keys|]];
    [by eauto| |by eauto]; destruct (decide (status = 200)); by eauto.
Qed.

(** X15: at startup the project list is requested once, or not at all when
    the URL cannot be built, and nothing is sent; the list is the
    tracker's when the request succeeds; and a plugin that holds projects
    already does not ask again. *)
Theorem startup_loads_projects_once (p : Plugin) :
  effects (_load_projects w cfg init) =
    (if projects_url_raises w cfg then [] else [Get (projects_url w cfg)]) ∧
  (projects_url_raises w cfg = false →
   ∀ keys, get_projects w (projects_url w cfg) = Answer 200 (Some keys) →
     state_after (_load_projects w cfg init)
     = {| _projects := keys; _recent_issues := ∅ |}) ∧
  (projects_url_raises w cfg = true → state_after (_load_projects w cfg init) = init) ∧
  (_projects p ≠ [] → _load_projects w cfg p = (tt, p, [])).
Proof.
  split; [|split; [|split]].
  - unfold _load_projects. cbn [_projects init]. rewrite bind_run, update_projects_run.
    destruct (projects_url_raises w cfg); [done|].
    destruct (get_projects w (projects_url w cfg)) as [|status [keys|]];
      [done| |done]; by destruct (decide (status = 200)).
  - intros Hurl keys Hok. unfold _load_projects. cbn [_projects init].
    rewrite bind_run, update_projects_run, Hurl, Hok. by rewrite decide_True.
  - intros Hurl. unfold _load_projects. cbn [_projects init].
    by rewrite bind_run, update_projects_run, Hurl.
  - intros Hsome. unfold _load_projects. by destruct (_projects p).
Qed.

End Pipeline.

Lemma message_requests_then_one_reply_witness :
  effects (on_message
             (Sample.world (fun _ => Answer 200 (Some "T")) Raised 1000)
             (Sample.config 60 2 false true)
             (Sample.message "@alice:example.org" "A-1 B-2 A-1 C-3")
             (Sample.plugin ["A"; "B"; "C"] ∅)) =
    [Get "https://tracker/rest/api/2/issue/A-1";
     Get "https://tracker/rest/api/2/issue/B-2";
     Respond ("A-1: T" +:+ newline +:+ "B-2: T")] ∧
  ∃ fetched texts,
    effects (on_message
               (Sample.world (fun _ => Answer 200 (Some "T")) Raised 1000)
               (Sample.config 60 2 false true)
               (Sample.message "@alice:example.org" "A-1 B-2 A-1 C-3")
               (Sample.plugin ["A"; "B"; "C"] ∅)) =
      ((fun k => Get (issue_url
                       (Sample.world (fun _ => Answer 200 (Some "T")) Raised 1000)
                       (Sample.config 60 2 false true) k)) <$> fetched)
      ++ (Respond <$> texts) ∧
    Z.of_nat (length fetched) <= 2.
Proof.
  split; [vm_compute; reflexivity|].
  destruct (message_requests_then_one_reply
              (Sample.world (fun _ => Answer 200 (Some "T")) Raised 1000)
              (Sample.config 60 2 false true)
              (Sample.message "@alice:example.org" "A-1 B-2 A-1 C-3")
              (Sample.plugin ["A"; "B"; "C"] ∅))
    as (fetched & texts & H1 & _ & _ & _ & H5).
  exists fetched, texts. split; [exact H1|]. apply H5. vm_compute. discriminate.
Defined.

Lemma zero_max_silences_witness :
  on_message (Sample.world (fun _ => Answer 200 (Some "T")) Raised 1000)
    (Sample.config 60 0 false true)
    (Sample.message "@alice:example.org" "A-1 B-2")
    (Sample.plugin ["A"; "B"] ∅) = (tt, Sample.plugin ["A"; "B"] ∅, []).
Proof.
  apply (zero_max_silences (Sample.world (fun _ => Answer 200 (Some "T")) Raised 1000)
           (Sample.config 60 0 false true)).
  reflexivity.
Defined.

Lemma startup_loads_projects_once_witness :
  state_after (_load_projects
                 (Sample.world (fun _ => Raised) (Answer 200 (Some ["JIRA"; "ABC"])) 1000)
                 (Sample.config 60 5 false true) init)
  = Sample.plugin ["JIRA"; "ABC"] ∅ ∧
  _load_projects (Sample.broken_world (fun _ => Raised) (Answer 200 (Some ["JIRA"])) 1000)
    (Sample.config 60 5 false true) init
  = (tt, init, []) ∧
  _load_projects (Sample.world (fun _ => Raised) (Answer 200 (Some ["XYZ"])) 1000)
    (Sample.config 60 5 false true) (Sample.plugin ["JIRA"; "ABC"] ∅)
  = (tt, Sample.plugin ["JIRA"; "ABC"] ∅, []).
Proof.
  split; [|split].
  - destruct (startup_loads_projects_once
                (Sample.world (fun _ => Raised) (Answer 200 (Some ["JIRA"; "ABC"])) 1000)
                (Sample.config 60 5 false true) init) as (_ & H & _).
    apply (H eq_refl ["JIRA"; "ABC"]). reflexivity.
  - destruct (startup_loads_projects_once
                (Sample.broken_world (fun _ => Raised) (Answer 200 (Some ["JIRA"])) 1000)
                (Sample.config 60 5 false true) init) as (He & _ & H & _).
    rewrite (triple_eta (_load_projects _ _ _)), He, (H eq_refl). reflexivity.
  - destruct (startup_loads_projects_once
                (Sample.world (fun _ => Raised) (Answer 200 (Some ["XYZ"])) 1000)
                (Sample.config 60 5 false true)
                (Sample.plugin ["JIRA"; "ABC"] ∅)) as (_ & _ & _ & H).
    apply H. vm_compute. discriminate.
Defined.

(** ** More on the cooldown ledger *)

(** X16: checking one key leaves the entries of the other keys as they
    were, but for those older than the window, which go. *)
Theorem cooldown_check_spares_other_keys (cfg : Config) (now : Z) (K : string)
    (recent : gmap string Z) (k : string) (ts : Z) :
  k ≠ K →
  (_is_issue_on_cooldown cfg now K recent).2 !! k = Some ts ↔
  recent !! k = Some ts ∧ now - ts <= issue_cooldown cfg.
Proof.
  intros Hne. rewrite cooldown_unfold.
  destruct (live cfg now recent !! K); cbn [snd].
  - apply lookup_live_Some.
  - rewrite lookup_insert_ne by done. apply lookup_live_Some.
Qed.

Lemma cooldown_check_spares_other_keys_witness :
  (_is_issue_on_cooldown (Sample.config 60 5 false false) 100 "FOO-1"
     {["BAR-2" := 90; "ABC-3" := 39]}).2 !! "BAR-2" = Some 90.
Proof.
  apply (cooldown_check_spares_other_keys (Sample.config 60 5 false false) 100 "FOO-1"
           {["BAR-2" := 90; "ABC-3" := 39]} "BAR-2" 90).
  - discriminate.
  - split; [vm_compute; reflexivity|vm_compute; discriminate].
Defined.

(** X17: a mention that is suppressed does not start the window anew: the
    entry keeps the time of the mention that was announced, and whether a
    third mention is suppressed depends on the time since that one only. *)
Theorem suppressed_mention_keeps_the_time (cfg : Config) (K : string)
    (t0 t1 t2 : Z) (recent : gmap string Z) :
  (∀ ts, recent !! K = Some ts → t0 - ts > issue_cooldown cfg) →
  t1 - t0 <= issue_cooldown cfg →
  let first := _is_issue_on_cooldown cfg t0 K recent in
  let second := _is_issue_on_cooldown cfg t1 K first.2 in
  let third := _is_issue_on_cooldown cfg t2 K second.2 in
  first.1 = false ∧
  second.1 = true ∧
  second.2 !! K = Some t0 ∧
  third.1 = bool_decide (t2 - t0 <= issue_cooldown cfg).
Proof.
  intros Hfresh Hsoon first second third.
  assert (Hfirst : first = (false, <[K := t0]> (live cfg t0 recent))).
  { subst first. rewrite cooldown_unfold.
    apply lookup_live_None in Hfresh. by rewrite Hfresh. }
  assert (Hk : live cfg t1 (<[K := t0]> (live cfg t0 recent)) !! K = Some t0).
  { apply lookup_live_Some. split; [apply lookup_insert_eq|done]. }
  assert (Hsecond : second = (true, live cfg t1 (<[K := t0]> (live cfg t0 recent)))).
  { subst second. rewrite Hfirst. cbn [snd]. rewrite cooldown_unfold. by rewrite Hk. }
  split; [by rewrite Hfirst|]. split; [by rewrite Hsecond|].
  split; [by rewrite Hsecond|].
  subst third. rewrite Hsecond. cbn [snd]. rewrite cooldown_unfold.
  destruct (decide (t2 - t0 <= issue_cooldown cfg)) as [Hin|Hout].
  - rewrite (bool_decide_eq_true_2 _ Hin).
    assert (Hk2 : live cfg t2 (live cfg t1 (<[K := t0]> (live cfg t0 recent))) !! K
                  = Some t0) by (by apply lookup_live_Some).
    by rewrite Hk2.
  - rewrite (bool_decide_eq_false_2 _ Hout).
    assert (Hk2 : live cfg t2 (live cfg t1 (<[K := t0]> (live cfg t0 recent))) !! K
                  = None).
    { apply lookup_live_None. intros ts. rewrite Hk. intros [= <-]. lia. }
    by rewrite Hk2.
Qed.

Lemma suppressed_mention_keeps_the_time_witness :
  (_is_issue_on_cooldown (Sample.config 60 5 false false) 100 "FOO-1" ∅).1 = false ∧
  (_is_issue_on_cooldown (Sample.config 60 5 false false) 150 "FOO-1"
     (_is_issue_on_cooldown (Sample.config 60 5 false false) 100 "FOO-1" ∅).2).1 = true ∧
  (_is_issue_on_cooldown (Sample.config 60 5 false false) 170 "FOO-1"
     (_is_issue_on_cooldown (Sample.config 60 5 false false) 150 "FOO-1"
        (_is_issue_on_cooldown (Sample.config 60 5 false false) 100 "FOO-1" ∅).2).2).1
  = false.
Proof.
  destruct (suppressed_mention_keeps_the_time (Sample.config 60 5 false false) "FOO-1"
              100 150 170 ∅) as (H1 & H2 & _ & H4).
  - intros ts. rewrite lookup_empty. discriminate.
  - vm_compute. discriminate.
  - split; [exact H1|]. split; [exact H2|]. rewrite H4. vm_compute. reflexivity.
Defined.

(** X18: with a negative [issue_cooldown], and no entry recorded in the
    future, nothing is ever suppressed: every check answers false and
    leaves the checked key alone in the ledger. *)
Theorem negative_cooldown_never_suppresses (cfg : Config) (now : Z) (K : string)
    (recent : gmap string Z) :
  issue_cooldown cfg < 0 →
  (∀ k ts, recent !! k = Some ts → ts <= now) →
  _is_issue_on_cooldown cfg now K recent = (false, {[K := now]}).
Proof.
  intros Hneg Hpast.
  assert (Hlive : live cfg now recent = ∅).
  { apply map_eq. intros k. rewrite lookup_empty. apply lookup_live_None.
    intros ts Hts. specialize (Hpast k ts Hts). lia. }
  rewrite cooldown_unfold, Hlive, lookup_empty. by rewrite insert_empty.
Qed.

Lemma negative_cooldown_never_suppresses_witness :
  _is_issue_on_cooldown (Sample.config (-1) 5 false false) 100 "FOO-1"
    {["FOO-1" := 100; "BAR-2" := 99]} = (false, {["FOO-1" := 100]}).
Proof.
  apply (negative_cooldown_never_suppresses (Sample.config (-1) 5 false false) 100
           "FOO-1" {["FOO-1" := 100; "BAR-2" := 99]}).
  - vm_compute. reflexivity.
  - intros k ts. destruct (decide (k = "FOO-1")) as [->|Hk].
    + rewrite lookup_insert_eq. intros [= <-]. lia.
    + rewrite lookup_insert_ne by done. destruct (decide (k = "BAR-2")) as [->|Hk'].
      * rewrite lookup_singleton_eq. intros [= <-]. lia.
      * rewrite lookup_singleton_ne by done. discriminate.
Defined.

(** ** More on the reply and the gate *)

(** X19: the lines of the reply get the "[off] " prefix exactly for the
    bodies that begin with an opening bracket, the letters o, f, f in
    either case, and a closing bracket. *)
Theorem off_marker_is_passed_on (message_body : string) (responses : list string) :
  let marked :=
    ∃ o f1 f2 rest,
      message_body = String "[" (String o (String f1 (String f2 (String "]" rest)))) ∧
      (o = "o"%char ∨ o = "O"%char) ∧
      (f1 = "f"%char ∨ f1 = "F"%char) ∧
      (f2 = "f"%char ∨ f2 = "F"%char) in
  (marked →
   response_text message_body responses =
     Str.join newline (map (fun response => "[off] " +:+ response) responses)) ∧
  (¬ marked → response_text message_body responses = Str.join newline responses).
Proof.
  intros marked. unfold response_text. split.
  - intros H%starts_with_off. by rewrite H.
  - intros H. destruct (Str.startswith "[off]" (Str.lower message_body)) eqn:Hoff;
      [|done].
    by apply starts_with_off in Hoff.
Qed.

Lemma off_marker_is_passed_on_witness :
  response_text "[oFF] see ABC-1" ["ABC-1: T"; "FOO-2: U"] =
    "[off] ABC-1: T" +:+ newline +:+ "[off] FOO-2: U" ∧
  response_text "[ off] see ABC-1" ["ABC-1: T"] = "ABC-1: T".
Proof.
  split.
  - destruct (off_marker_is_passed_on "[oFF] see ABC-1" ["ABC-1: T"; "FOO-2: U"])
      as [H _].
    rewrite H; [reflexivity|].
    exists "o"%char, "F"%char, "F"%char, " see ABC-1". repeat split; auto.
  - destruct (off_marker_is_passed_on "[ off] see ABC-1" ["ABC-1: T"]) as [_ H].
    rewrite H; [reflexivity|].
    intros (o & f1 & f2 & rest & Heq & [Ho|Ho] & _); subst o; discriminate Heq.
Defined.

Lemma split_head_no_sep (sep : ascii) (s : string) :
  all_chars (fun c => bool_decide (c ≠ sep)) s = true → Str.split_head sep s = s.
Proof.
  induction s as [|c s IH]; [done|]. cbn.
  intros [Hc Hs]%andb_true_iff. apply bool_decide_eq_true in Hc.
  rewrite decide_False by done. by rewrite IH.
Qed.

Lemma lstrip_no_start (p : ascii → bool) (s : string) :
  match s with String c _ => p c = false | EmptyString => True end →
  Str.lstrip p s = s.
Proof. destruct s as [|c s]; [done|]. cbn. by intros ->. Qed.

(** X20: a name on the ignore list silences the users of that name on
    every server: for a local part without a colon that does not start
    with an at sign, messages of [@local:server] are dropped whatever the
    server is. *)
Theorem ignored_on_every_server (w : World) (cfg : Config)
    (localpart server text : string) (type : MessageType) (p : Plugin) :
  all_chars (fun c => bool_decide (c ≠ ":"%char)) localpart = true →
  Str.startswith "@" localpart = false →
  localpart ∈ map Str.strip (ignored_users cfg) →
  on_message w cfg
    {| msgtype := type; sender := "@" +:+ localpart +:+ ":" +:+ server; body := text |} p
  = (tt, p, []).
Proof.
  intros Hcolon Hat Hin.
  assert (Hname : username ("@" +:+ localpart +:+ ":" +:+ server) = localpart).
  { apply username_of_mxid; [by apply split_head_no_sep|].
    apply lstrip_no_start. destruct localpart as [|c l]; [done|].
    cbn in Hat. destruct (decide ("@"%char = c)) as [<-|Hc]; [done|].
    apply bool_decide_eq_false. congruence. }
  unfold on_message; cbn [msgtype sender].
  destruct (decide (type ≠ TEXT)); [done|].
  assert (Hignored : _is_ignored_user cfg ("@" +:+ localpart +:+ ":" +:+ server) = true).
  { apply is_ignored_user_spec. by rewrite Hname. }
  by rewrite Hignored.
Qed.

Lemma ignored_on_every_server_witness :
  on_message (Sample.world (fun _ => Answer 200 (Some "T")) Raised 1000)
    (Sample.config 60 5 false true)
    {| msgtype := TEXT; sender := "@" +:+ "carol" +:+ ":" +:+ "elsewhere.net";
       body := "A-1" |}
    (Sample.plugin ["A"] ∅) = (tt, Sample.plugin ["A"] ∅, []).
Proof.
  apply (ignored_on_every_server
           (Sample.world (fun _ => Answer 200 (Some "T")) Raised 1000)
           (Sample.config 60 5 false true) "carol" "elsewhere.net" "A-1" TEXT
           (Sample.plugin ["A"] ∅)).
  - vm_compute. reflexivity.
  - vm_compute. reflexivity.
  - vm_compute. apply list_elem_of_further, list_elem_of_here.
Defined.

(** X21: a text message from a sender who is neither on the ignore list nor
    the bot itself always reaches the extractor. *)
Theorem other_messages_are_processed (w : World) (cfg : Config) (evt : MessageEvent)
    (p : Plugin) :
  msgtype evt = TEXT →
  username (sender evt) ∉ map Str.strip (ignored_users cfg) →
  sender evt ≠ mxid w →
  on_message w cfg evt p = _process_message_for_issues w cfg evt p.
Proof.
  intros Htext Hnot Hother. unfold on_message.
  rewrite decide_False by (by intros H).
  destruct (_is_ignored_user cfg (sender evt)) eqn:Hignored.
  - by apply is_ignored_user_spec in Hignored.
  - by rewrite decide_False.
Qed.

Lemma other_messages_are_processed_witness :
  effects (on_message (Sample.world (fun _ => Answer 200 (Some "T")) Raised 1000)
             (Sample.config 60 5 false true)
             (Sample.message "@Bob:example.org" "A-1")
             (Sample.plugin ["A"] ∅))
  = [Get "https://tracker/rest/api/2/issue/A-1"; Respond "A-1: T"].
Proof.
  rewrite (other_messages_are_processed
             (Sample.world (fun _ => Answer 200 (Some "T")) Raised 1000)
             (Sample.config 60 5 false true)
             (Sample.message "@Bob:example.org" "A-1")
             (Sample.plugin ["A"] ∅)).
  - vm_compute. reflexivity.
  - reflexivity.
  - vm_compute. intros H. inversion H as [|? ? ? H']; subst.
    inversion H' as [|? ? ? H'']; subst. inversion H''.
  - vm_compute. discriminate.
Defined.

(** ** A message said twice *)

Section Twice.

Context (cfg : Config).

(** An entry that is not older than the window when another key is checked
    is still there after that round of the loop. *)
Lemma lookup_issue_keeps (w : World) (k' : string) (p : Plugin) (k : string) (ts : Z) :
  k ≠ k' →
  _recent_issues p !! k = Some ts →
  time_at w k' - ts <= issue_cooldown cfg →
  _recent_issues (state_after (lookup_issue w cfg k' p)) !! k = Some ts.
Proof.
  intros Hne Hk Halive. rewrite lookup_issue_run. destruct (decide _); [|done].
  assert (Hlive : checked w cfg k' p !! k = Some ts) by (by apply lookup_live_Some).
  destruct (checked w cfg k' p !! k'); unfold state_after; cbn [fst snd _recent_issues];
    [done|]. by rewrite lookup_insert_ne.
Qed.

Lemma lookup_issues_keeps (w : World) (keys : list string) (p : Plugin)
    (k : string) (ts : Z) :
  k ∉ keys →
  _recent_issues p !! k = Some ts →
  (∀ k', k' ∈ keys → time_at w k' - ts <= issue_cooldown cfg) →
  _recent_issues (state_after (lookup_issues w cfg keys p)) !! k = Some ts.
Proof.
  revert p. induction keys as [|k0 keys IH]; intros p Hnot Hk Halive; [done|].
  rewrite lookup_issues_cons. unfold state_after at 1; cbn [fst snd].
  apply IH.
  - intros Hin. apply Hnot. by right.
  - apply lookup_issue_keeps; [|done|apply Halive, list_elem_of_here].
    intros ->. apply Hnot, list_elem_of_here.
  - intros k' Hk'. apply Halive. by right.
Qed.

Lemma lookup_issue_fresh (w : World) (k' : string) (p : Plugin) (k : string) :
  k ≠ k' →
  _recent_issues p !! k = None →
  _recent_issues (state_after (lookup_issue w cfg k' p)) !! k = None.
Proof.
  intros Hne Hk.
  destruct (_recent_issues (state_after (lookup_issue w cfg k' p)) !! k) as [ts|] eqn:H;
    [|done].
  apply lookup_issue_ledger in H as [H|(-> & _)]; [congruence|done].
Qed.

(** After the loop, each key of a known project that had no entry has one
    with the time of its check, when the checks of the message lie within
    one window. *)
Lemma lookup_issues_records (w : World) (keys : list string) (p : Plugin) :
  NoDup keys →
  (∀ k, k ∈ keys → _recent_issues p !! k = None) →
  (∀ k k', k ∈ keys → k' ∈ keys → time_at w k' - time_at w k <= issue_cooldown cfg) →
  ∀ k, k ∈ keys → Str.split_head "-" k ∈ _projects p →
       _recent_issues (state_after (lookup_issues w cfg keys p)) !! k
       = Some (time_at w k).
Proof.
  intros Hdup. revert p.
  induction Hdup as [|k0 keys Hk0 Hdup IH]; intros p Hfresh Htimes k Hin Hknown.
  { by apply elem_of_nil in Hin. }
  rewrite lookup_issues_cons. unfold state_after at 1; cbn [fst snd].
  apply elem_of_cons in Hin as [->|Hin].
  - apply lookup_issues_keeps; [done| |].
    + rewrite lookup_issue_run, decide_True by done. unfold checked.
      assert (Hnone : live cfg (time_at w k0) (_recent_issues p) !! k0 = None).
      { apply lookup_live_None. intros ts. rewrite Hfresh by apply list_elem_of_here.
        discriminate. }
      rewrite Hnone. unfold state_after; cbn [fst snd _recent_issues].
      apply lookup_insert_eq.
    + intros k' Hk'. apply Htimes; [apply list_elem_of_here|by right].
  - apply IH; [| |done|by rewrite lookup_issue_projects].
    + intros k' Hk'. apply lookup_issue_fresh.
      * intros ->. done.
      * apply Hfresh. by right.
    + intros k1 k2 H1 H2. apply Htimes; by right.
Qed.

(** Keys that all have an entry not older than the window at their checks
    cause nothing. *)
Lemma lookup_issues_suppressed (w : World) (keys : list string) (p : Plugin) :
  (∀ k, k ∈ keys → Str.split_head "-" k ∈ _projects p →
        ∃ ts, _recent_issues p !! k = Some ts ∧
              ∀ k', k' ∈ keys → time_at w k' - ts <= issue_cooldown cfg) →
  result (lookup_issues w cfg keys p) = [] ∧
  effects (lookup_issues w cfg keys p) = [].
Proof.
  revert p. induction keys as [|k0 keys IH]; intros p Halive; [done|].
  rewrite lookup_issues_cons. unfold result at 1, effects at 1; cbn [fst snd].
  assert (Hstep : result (lookup_issue w cfg k0 p) = None ∧
                  effects (lookup_issue w cfg k0 p) = []).
  { rewrite lookup_issue_run. destruct (decide _) as [Hknown|]; [|done].
    destruct (Halive k0 (list_elem_of_here _ _) Hknown) as (ts & Hts & Hle).
    assert (Hk : checked w cfg k0 p !! k0 = Some ts).
    { apply lookup_live_Some. split; [done|]. apply Hle, list_elem_of_here. }
    by rewrite Hk. }
  destruct Hstep as [-> ->].
  destruct (IH (state_after (lookup_issue w cfg k0 p))) as [-> ->]; [|done].
  intros k Hk Hknown. rewrite lookup_issue_projects in Hknown.
  destruct (Halive k (list_elem_of_further _ _ _ Hk) Hknown) as (ts & Hts & Hle).
  exists ts. split; [|intros k' Hk'; apply Hle; by right].
  rewrite lookup_issue_run. destruct (decide _); [|done].
  assert (Hlive : checked w cfg k0 p !! k = Some ts).
  { apply lookup_live_Some. split; [done|]. apply Hle, list_elem_of_here. }
  destruct (checked w cfg k0 p !! k0) eqn:Hk0;
    unfold state_after; cbn [fst snd _recent_issues]; [done|].
  rewrite lookup_insert_ne; [done|]. intros ->. congruence.
Qed.

(** X22: a message said again while its keys are on cooldown causes
    nothing: when the keys had no entry before the first time, and all the
    checks of both times lie within one window of the first checks, the
    second time makes no request and gets no reply. *)
Theorem repeated_message_is_silent (w later : World) (evt : MessageEvent) (p : Plugin) :
  let keys := unique_issues cfg (body evt) in
  (∀ k, k ∈ keys → _recent_issues p !! k = None) →
  (∀ k k', k ∈ keys → k' ∈ keys →
           time_at w k' - time_at w k <= issue_cooldown cfg ∧
           time_at later k' - time_at w k <= issue_cooldown cfg) →
  effects (_process_message_for_issues later cfg evt
             (state_after (_process_message_for_issues w cfg evt p))) = [].
Proof.
  intros keys Hfresh Htimes.
  rewrite (process_message_run w cfg evt p). unfold state_after at 1; cbn [fst snd].
  rewrite process_message_run. fold keys.
  destruct (lookup_issues_suppressed later keys
              (state_after (lookup_issues w cfg keys p))) as [-> ->]; [|done].
  intros k Hk Hknown. rewrite lookup_issues_projects in Hknown.
  exists (time_at w k). split.
  - apply lookup_issues_records; [apply unique_issues_NoDup|done| |done|done].
    intros k1 k2 H1 H2. by apply Htimes.
  - intros k' Hk'. by apply Htimes.
Qed.

End Twice.

Lemma repeated_message_is_silent_witness :
  effects (_process_message_for_issues
             (Sample.world (fun _ => Answer 200 (Some "T")) Raised 1000)
             (Sample.config 60 5 false true)
             (Sample.message "@alice:example.org" "A-1 and B-2")
             (Sample.plugin ["A"; "B"] ∅))
  = [Get "https://tracker/rest/api/2/issue/A-1";
     Get "https://tracker/rest/api/2/issue/B-2";
     Respond ("A-1: T" +:+ newline +:+ "B-2: T")] ∧
  effects (_process_message_for_issues
             (Sample.world (fun _ => Answer 200 (Some "T")) Raised 1060)
             (Sample.config 60 5 false true)
             (Sample.message "@alice:example.org" "A-1 and B-2")
             (state_after
                (_process_message_for_issues
                   (Sample.world (fun _ => Answer 200 (Some "T")) Raised 1000)
                   (Sample.config 60 5 false true)
                   (Sample.message "@alice:example.org" "A-1 and B-2")
                   (Sample.plugin ["A"; "B"] ∅)))) = [].
Proof.
  split; [vm_compute; reflexivity|].
  apply (repeated_message_is_silent (Sample.config 60 5 false true)
           (Sample.world (fun _ => Answer 200 (Some "T")) Raised 1000)
           (Sample.world (fun _ => Answer 200 (Some "T")) Raised 1060)
           (Sample.message "@alice:example.org" "A-1 and B-2")
           (Sample.plugin ["A"; "B"] ∅)).
  - intros k _. apply lookup_empty.
  - intros k k' _ _. vm_compute. split; discriminate.
Defined.

(** ** More on the fetch *)

(** X23: fetching an issue leaves the state as it is and makes one
    request, to the issue resource of the key, or none when that URL
    cannot be built; it yields a line exactly when the URLs can be built
    and the tracker answers 200 with a title, and the line is that of the
    key and the title. *)
Theorem fetch_asks_at_most_once (w : World) (cfg : Config) (issue_key : string)
    (p : Plugin) :
  state_after (_fetch_issue_info w cfg issue_key p) = p ∧
  effects (_fetch_issue_info w cfg issue_key p) =
    (if issue_url_raises w cfg issue_key then []
     else [Get (issue_url w cfg issue_key)]) ∧
  ∀ line,
    result (_fetch_issue_info w cfg issue_key p) = Some line ↔
    issue_url_raises w cfg issue_key = false ∧
    browse_url_raises w cfg issue_key = false ∧
    ∃ title,
      get_issue w (issue_url w cfg issue_key) = Answer 200 (Some title) ∧
      line = issue_line w cfg issue_key title.
Proof.
  rewrite fetch_issue_info_run. split; [done|]. split; [done|].
  intros line. cbn [result fst]. unfold fetched_line, fetched_title.
  destruct (issue_url_raises w cfg issue_key); [split; [done|by intros [? _]]|].
  destruct (get_issue w (issue_url w cfg issue_key)) as [|status [title|]].
  - split; [done|]. by intros (_ & _ & title & ? & _).
  - destruct (decide (status = 200)) as [->|Hs].
    + destruct (browse_url_raises w cfg issue_key).
      * split; [done|]. by intros (_ & ? & _).
      * split.
        -- intros [= <-]. split; [done|]. split; [done|]. by exists title.
        -- intros (_ & _ & title' & [= <-] & ->). done.
    + split; [done|]. intros (_ & _ & title' & [= ? ?] & _). done.
  - split; [done|]. by intros (_ & _ & title & ? & _).
Qed.

(** Witnesses for the extractor. *)

Lemma found_issues_are_whole_words_witness :
  ∃ before after_it letters digits,
    "see FOO-12, xBAR-3" = before +:+ "FOO-12" +:+ after_it ∧
    "FOO-12" = letters +:+ "-" +:+ digits ∧
    letters ≠ "" ∧ all_chars Char.is_upper_AZ letters = true ∧
    digits ≠ "" ∧ all_chars Char.is_digit digits = true ∧
    Re.word_at (prev_after None before) = false ∧
    Re.word_at (Re.next_char after_it) = false.
Proof.
  apply (found_issues_are_whole_words "see FOO-12, xBAR-3" "FOO-12").
  vm_compute. apply list_elem_of_here.
Defined.

Lemma project_key_is_capital_letters_witness :
  Str.split_head "-" "FOO-12" ≠ "" ∧
  all_chars Char.is_upper_AZ (Str.split_head "-" "FOO-12") = true ∧
  ∃ digits, "FOO-12" = Str.split_head "-" "FOO-12" +:+ "-" +:+ digits ∧
            digits ≠ "" ∧ all_chars Char.is_digit digits = true.
Proof.
  apply (project_key_is_capital_letters (Sample.config 60 5 false true)
           "see FOO-12, xBAR-3" "FOO-12").
  vm_compute. apply list_elem_of_here.
Defined.

Lemma url_removal_passes_over_witness :
  issue_matches (Sample.config 60 5 false false)
    "https://x/FOO-1 https://x/BAR-2 https://x/ABC-3" = ["BAR-2"].
Proof.
  rewrite (url_removal_passes_over (Sample.config 60 5 false false)
             "https://x/FOO-1 https://x/BAR-2 https://x/ABC-3").
  - vm_compute. reflexivity.
  - reflexivity.
  - vm_compute. repeat constructor; intros H; repeat (inversion H as [|? ? ? H']; subst; clear H; rename H' into H).
Defined.
